(** * bgheatmaps: plane geometry and mesh slicing

    A shallow embedding of [src/bgheatmaps/plane.py]: the class [Plane]
    (constructor, [from_norm], [to_mesh], [centerOfMass], [P3toP2],
    [intersectWith], [get_projections]).

    Numbers.  numpy's float64 arrays are idealised as vectors of real
    numbers: rounding, overflow and underflow are not modelled.  The one
    non-finite value that finite inputs can produce in exact arithmetic, the
    quotient by a zero norm, is kept apart: [np.normalized] returns [None]
    where numpy returns an array of nan/inf entries.

    Exceptions.  Fallible code returns [exn + A]; [exn] lists the Python
    exceptions the source can raise ([assert] raises [AssertionError],
    indexing an empty array raises [IndexError]).

    External code.  vedo/vtk meshes and brainrender's [Actor] are not part of
    the repository; the operations the source calls on them form the
    interface [Vedo]. *)

From Stdlib Require Import Reals Lra Lia Ascii.
From stdpp Require Import gmap strings pretty list.

(** ** Python exceptions and the error monad *)

Inductive exn : Set := AssertionError | IndexError.

Definition result (A : Type) : Type := (exn + A)%type.

Definition bind {A B : Type} (r : result A) (k : A -> result B) : result B :=
  match r with
  | inl e => inl e
  | inr a => k a
  end.

Notation "'let!' x ':=' e 'in' k" := (bind e (fun x => k))
  (at level 10, x name, e at level 100, k at level 200).

(** ** The fragment of numpy the source uses *)

Module np.
Local Open Scope R_scope.

#[global] Instance Rle_decision (x y : R) : Decision (x <= y) := Rle_dec x y.
#[global] Instance Rlt_decision (x y : R) : Decision (x < y) := Rlt_dec x y.
#[global] Instance Req_decision : EqDecision R := Req_dec_T.

(** A 1-d array of shape (3,), a 1-d array of shape (2,), and the 2-d arrays
    of shape (2,3) and (3,2), given by their rows. *)
Record vec3 : Type := Vec3 { vx : R; vy : R; vz : R }.
Record vec2 : Type := Vec2 { px : R; py : R }.
Record mat23 : Type := Mat23 { top : vec3; bottom : vec3 }.
Record mat32 : Type := Mat32 { row0 : vec2; row1 : vec2; row2 : vec2 }.

(** [np.zeros(3)] *)
Definition zeros3 : vec3 := Vec3 0 0 0.

(** [a[i]]: indices outside 0..2 raise. *)
Definition getitem (a : vec3) (i : nat) : result R :=
  match i with
  | 0%nat => inr (vx a)
  | 1%nat => inr (vy a)
  | 2%nat => inr (vz a)
  | _ => inl IndexError
  end.

(** [a[i] = x] *)
Definition setitem (a : vec3) (i : nat) (x : R) : result vec3 :=
  match i with
  | 0%nat => inr (Vec3 x (vy a) (vz a))
  | 1%nat => inr (Vec3 (vx a) x (vz a))
  | 2%nat => inr (Vec3 (vx a) (vy a) x)
  | _ => inl IndexError
  end.

(** [np.where(a != 0)[0]]: the indices of the non-zero entries, ascending. *)
Definition where_nonzero (a : vec3) : list nat :=
  (if decide (vx a = 0) then [] else [0%nat]) ++
  (if decide (vy a = 0) then [] else [1%nat]) ++
  (if decide (vz a = 0) then [] else [2%nat]).

(** [idx[0]] on an index array. *)
Definition first_index (idx : list nat) : result nat :=
  match idx with
  | [] => inl IndexError
  | i :: _ => inr i
  end.

Definition dot (a b : vec3) : R :=
  vx a * vx b + vy a * vy b + vz a * vz b.

Definition cross (a b : vec3) : vec3 :=
  Vec3 (vy a * vz b - vz a * vy b)
       (vz a * vx b - vx a * vz b)
       (vx a * vy b - vy a * vx b).

(** [np.linalg.norm(a)] *)
Definition linalg_norm (a : vec3) : R :=
  sqrt (vx a * vx a + vy a * vy a + vz a * vz a).

Definition sub (a b : vec3) : vec3 :=
  Vec3 (vx a - vx b) (vy a - vy b) (vz a - vz b).

Definition add (a b : vec3) : vec3 :=
  Vec3 (vx a + vx b) (vy a + vy b) (vz a + vz b).

Definition scale (s : R) (a : vec3) : vec3 :=
  Vec3 (s * vx a) (s * vy a) (s * vz a).

(** [a / s] for a scalar [s].  numpy does not raise on [s = 0]: the entries
    become nan or inf.  [None] stands for such a non-finite array. *)
Definition true_divide (a : vec3) (s : R) : option vec3 :=
  if decide (s = 0) then None
  else Some (Vec3 (vx a / s) (vy a / s) (vz a / s)).

(** [a / np.linalg.norm(a)] *)
Definition normalized (a : vec3) : option vec3 :=
  true_divide a (linalg_norm a).

(** [np.isclose(a, b)] with numpy's defaults [rtol=1e-05], [atol=1e-08]:
    [|a - b| <= atol + rtol * |b|]. *)
Definition rtol : R := 1e-5.
Definition atol : R := 1e-8.

Definition isclose (a b : R) : bool :=
  bool_decide (Rabs (a - b) <= atol + rtol * Rabs b).

(** [np.vstack([a, b])] and [.T] *)
Definition vstack (a b : vec3) : mat23 := Mat23 a b.

Definition T (m : mat23) : mat32 :=
  Mat32 (Vec2 (vx (top m)) (vx (bottom m)))
        (Vec2 (vy (top m)) (vy (bottom m)))
        (Vec2 (vz (top m)) (vz (bottom m))).

Definition col0 (m : mat32) : vec3 :=
  Vec3 (px (row0 m)) (px (row1 m)) (px (row2 m)).

Definition col1 (m : mat32) : vec3 :=
  Vec3 (py (row0 m)) (py (row1 m)) (py (row2 m)).

(** [p @ m] for one row [p]. *)
Definition matmul (p : vec3) (m : mat32) : vec2 :=
  Vec2 (vx p * px (row0 m) + vy p * px (row1 m) + vz p * px (row2 m))
       (vx p * py (row0 m) + vy p * py (row1 m) + vz p * py (row2 m)).

End np.

Import np.

(** Python's built-in [max(a, b, c)]: the running maximum is replaced only by
    a strictly greater item. *)
Definition max3 (a b c : R) : R :=
  let m := a in
  let m := if decide (m < b)%R then b else m in
  if decide (m < c)%R then c else m.

(** ** class Plane: the part that needs no mesh *)

Module Plane.
Local Open Scope R_scope.

Record t : Type := mk {
  center : vec3;
  u : vec3;
  v : vec3;
  normal : vec3;
  M : mat32
}.

(** [Plane.__init__] (plane.py, lines 49-55).  The assertion sees
    [np.dot(self.u, self.v)]; with a non-finite [self.u] or [self.v] the dot
    product is nan or inf, [np.isclose] is [False] and the assertion fails.
    [M] is stacked from the arguments [u], [v], not from [self.u], [self.v]. *)
Definition __init__ (origin u v : vec3) : result t :=
  match normalized u, normalized v with
  | Some self_u, Some self_v =>
      if isclose (dot self_u self_v) 0
      then inr {| center := origin;
                  u := self_u;
                  v := self_v;
                  normal := cross self_u self_v;
                  M := T (vstack u v) |}
      else inl AssertionError
  | _, _ => inl AssertionError
  end.

(** [Plane.from_norm] (lines 57-67).  A non-finite [norm] or [u] would reach
    the constructor's assertion and fail there. *)
Definition from_norm (origin norm : vec3) : result t :=
  let u := zeros3 in
  let! m := first_index (where_nonzero norm) in
  let n := ((m + 1) mod 3)%nat in
  let! norm_m := getitem norm m in
  let! u := setitem u n norm_m in
  let! norm_n := getitem norm n in
  let! u := setitem u m (- norm_n) in
  match normalized norm, normalized u with
  | Some norm, Some u =>
      let v := cross norm u in
      __init__ origin u v
  | _, _ => inl AssertionError
  end.

(** [Plane.centerOfMass] (lines 86-87) *)
Definition centerOfMass (self : t) : vec3 := center self.

(** [Plane.P3toP2] (lines 89-92): [(ps - self.center) @ self.M], the
    subtraction broadcast over the rows of [ps]. *)
Definition P3toP2 (self : t) (ps : list vec3) : list vec2 :=
  map (fun p => matmul (sub p (center self)) (M self)) ps.

(** Specification: the planes the class can hand out are the results of
    its two constructors. *)
Inductive constructed : t -> Prop :=
  | constructed_init (origin u v : vec3) (self : t) :
      __init__ origin u v = inr self -> constructed self
  | constructed_from_norm (origin norm : vec3) (self : t) :
      from_norm origin norm = inr self -> constructed self.

(** numpy's closeness test as a relation. *)
Definition approx (a b : R) : Prop := Rabs (a - b) <= atol + rtol * Rabs b.

(** Specification: the invariant of the data model.  Unit axes,
    normal = u x v, and the three vectors mutually orthogonal, each up to
    numpy's tolerance. *)
Record orthonormal (self : t) : Prop := {
  unit_u : approx (linalg_norm (u self)) 1;
  unit_v : approx (linalg_norm (v self)) 1;
  unit_normal : approx (linalg_norm (normal self)) 1;
  normal_is_cross : normal self = cross (u self) (v self);
  u_dot_v : approx (dot (u self) (v self)) 0;
  u_dot_normal : approx (dot (u self) (normal self)) 0;
  v_dot_normal : approx (dot (v self) (normal self)) 0
}.

End Plane.

(** ** External collaborators: vedo / vtk meshes and brainrender actors *)

(** The operations the source calls on [vd.Mesh] values.  [vtk_cut] is what
    [intersect_with_plane] (lines 18-46) assembles from [vtkPlane] and
    [vtkPolyDataPlaneCutter]; [join_reset] is [piece.join(reset=True)];
    [vd_Plane pos normal sx sy] is [vd.Plane(pos=, normal=, sx=, sy=)]. *)
Class Vedo (Mesh : Type) : Type := {
  vtk_cut : Mesh -> vec3 -> vec3 -> Mesh;
  points : Mesh -> list vec3;
  splitByConnectivity : Mesh -> list Mesh;
  join_reset : Mesh -> Mesh;
  vd_Plane : vec3 -> vec3 -> R -> R -> Mesh
}.

(** [actor.bounds()]: six scalars, indexed 0..5 in the source. *)
Record Bounds : Type := mkBounds {
  xmin : R; xmax : R;
  ymin : R; ymax : R;
  zmin : R; zmax : R
}.

(** A brainrender [Actor] as far as the source looks at it.  [_mesh] and
    [width] are instance attributes that may be absent from
    [actor.__dict__]. *)
Record Actor (Mesh : Type) : Type := mkActor {
  mesh : Mesh;
  name : string;
  br_class : string;
  _mesh : option Mesh;
  width : option R
}.

Arguments mkActor {Mesh}.
Arguments mesh {Mesh}.
Arguments name {Mesh}.
Arguments br_class {Mesh}.
Arguments _mesh {Mesh}.
Arguments width {Mesh}.

(** [Actor(mesh, name=..., br_class=...)] *)
Definition Actor_new {Mesh : Type} (m : Mesh) (nm cls : string) : Actor Mesh :=
  {| mesh := m; name := nm; br_class := cls; _mesh := None; width := None |}.

(** [enumerate(xs)] *)
Definition enumerate {A : Type} (xs : list A) : list (nat * A) :=
  imap pair xs.

(** The characters of a string. *)
Abbreviation chars := String.list_ascii_of_string.

(** [name + f"_segment_{piece_n}"] *)
Definition segment_key (nm : string) (piece_n : nat) : string :=
  nm +:+ "_segment_" +:+ pretty piece_n.

(** ** class Plane: the methods that work on meshes *)

Module Slicer.
Import Plane.

Section WithVedo.
Context {Mesh : Type} `{!Vedo Mesh}.

(** [self.center] and [self.normal] as they are printed in the name of the
    plane mesh, and [actor.bounds()]. *)
Variable format_array : vec3 -> string.
Variable bounds : Actor Mesh -> Bounds.

(** [intersect_with_plane] (lines 18-46) *)
Definition intersect_with_plane (m : Mesh) (origin normal : vec3) : Mesh :=
  vtk_cut m origin normal.

(** [Plane.to_mesh] (lines 69-84) *)
Definition to_mesh (self : Plane.t) (actor : Actor Mesh) : Actor Mesh :=
  let bounds := bounds actor in
  let length := max3 (xmax bounds - xmin bounds)
                     (ymax bounds - ymin bounds)
                     (zmax bounds - zmin bounds) in
  let length := (length + length / 3)%R in
  let plane_mesh :=
    Actor_new (vd_Plane (center self) (normal self) length length)
              ("PlaneMesh at " +:+ format_array (center self) +:+
               " norm: " +:+ format_array (normal self))
              "plane_mesh" in
  {| mesh := mesh plane_mesh; name := name plane_mesh;
     br_class := br_class plane_mesh; _mesh := _mesh plane_mesh;
     width := Some length |}.

(** [Plane.intersectWith] (lines 94-96) *)
Definition intersectWith (self : Plane.t) (m : Mesh) : Mesh :=
  intersect_with_plane m (center self) (normal self).

(** Lines 102-106 of [get_projections]: the mesh picked for an actor. *)
Definition actor_mesh (actor : Actor Mesh) : Mesh :=
  match _mesh actor with
  | Some m => m
  | None => mesh actor
  end.

(** Lines 111-114: the inner loop over the enumerated pieces. *)
Definition project_pieces (self : Plane.t) (actor_name : string)
    (pieces : list Mesh) (projected : gmap string (list vec2))
    : gmap string (list vec2) :=
  foldl (fun projected '(piece_n, piece) =>
           let points := points (join_reset piece) in
           <[segment_key actor_name piece_n := P3toP2 self points]> projected)
        projected (enumerate pieces).

(** Lines 101-114: one iteration of the loop over the actors. *)
Definition project_actor (self : Plane.t)
    (projected : gmap string (list vec2)) (actor : Actor Mesh)
    : gmap string (list vec2) :=
  let mesh := actor_mesh actor in
  let intersection := intersectWith self mesh in
  if (length (points intersection) =? 0)%nat then projected
  else
    let pieces := splitByConnectivity intersection in
    project_pieces self (name actor) pieces projected.

(** [Plane.get_projections] (lines 99-115).  The function has no [raise]
    or [assert] of its own and indexes nothing: it is total, given the
    external operations. *)
Definition get_projections (self : Plane.t) (actors : list (Actor Mesh))
    : gmap string (list vec2) :=
  foldl (project_actor self) ∅ actors.

(** Where an entry [k := val] of the result comes from: the [n]-th piece
    of the intersection of one of the actors. *)
Definition from_piece (self : Plane.t) (actors : list (Actor Mesh))
    (k : string) (val : list vec2) : Prop :=
  exists actor n piece,
    actor ∈ actors /\
    points (intersectWith self (actor_mesh actor)) <> [] /\
    splitByConnectivity (intersectWith self (actor_mesh actor)) !! n
      = Some piece /\
    k = segment_key (name actor) n /\
    val = P3toP2 self (points (join_reset piece)).

(** Specification, in the words of the requirement: the mesh to cut for an
    actor is the modified mesh [_mesh] when the actor has one and the
    original [mesh] otherwise.  The code's choice is [actor_mesh]. *)
Inductive mesh_to_slice (actor : Actor Mesh) : Mesh -> Prop :=
  | slice_modified (m : Mesh) :
      _mesh actor = Some m -> mesh_to_slice actor m
  | slice_original :
      _mesh actor = None -> mesh_to_slice actor (mesh actor).

(** *** The object over its lifetime

    A call of any method of a constructed plane, and the object it leaves
    behind.  No method of the class assigns to an attribute of [self]. *)
Inductive call : Type :=
  | call_to_mesh (actor : Actor Mesh)
  | call_centerOfMass
  | call_P3toP2 (ps : list vec3)
  | call_intersectWith (m : Mesh)
  | call_get_projections (actors : list (Actor Mesh)).

Inductive returned : Type :=
  | ret_actor (a : Actor Mesh)
  | ret_point (p : vec3)
  | ret_points (ps : list vec2)
  | ret_mesh (m : Mesh)
  | ret_dict (d : gmap string (list vec2)).

Definition invoke (self : Plane.t) (c : call) : Plane.t * returned :=
  match c with
  | call_to_mesh actor => (self, ret_actor (to_mesh self actor))
  | call_centerOfMass => (self, ret_point (centerOfMass self))
  | call_P3toP2 ps => (self, ret_points (P3toP2 self ps))
  | call_intersectWith m => (self, ret_mesh (intersectWith self m))
  | call_get_projections actors =>
      (self, ret_dict (get_projections self actors))
  end.

Definition after_calls (self : Plane.t) (cs : list call) : Plane.t :=
  foldl (fun self c => fst (invoke self c)) self cs.

End WithVedo.
End Slicer.

(** The 2D points stored for a piece. *)
Abbreviation emitted self piece :=
  (Plane.P3toP2 self (points (join_reset piece))).

(** ** A concrete mesh provider

    Meshes given directly as their polylines: cutting returns the polylines
    unchanged, every polyline is a connected piece of its own, and joining a
    piece keeps its points. *)
Module Polylines.

Definition Mesh : Type := list (list vec3).

#[global] Instance vedo : Vedo Mesh := {|
  vtk_cut m _ _ := m;
  points m := concat m;
  splitByConnectivity m := map (fun l => [l]) m;
  join_reset m := m;
  vd_Plane _ _ _ _ := []
|}.

Definition format_array (_ : vec3) : string := "[...]".

Definition bounds (_ : Actor Mesh) : Bounds := mkBounds 0 1 0 2 0 3.

End Polylines.

(** ** Sample inputs *)
Module Samples.

(** The plane z = 0 through the origin, as the constructor builds it from
    the axes (1,0,0) and (0,1,0). *)
Definition xy_plane : Plane.t :=
  Plane.mk zeros3 (Vec3 1 0 0) (Vec3 0 1 0)
           (cross (Vec3 1 0 0) (Vec3 0 1 0))
           (T (vstack (Vec3 1 0 0) (Vec3 0 1 0))).

(** An actor that meets the plane in a single point. *)
Definition touching : Actor Polylines.Mesh :=
  mkActor [[Vec3 1 0 0]] "root" "brain region" None None.

(** An actor that does not meet the plane. *)
Definition missing : Actor Polylines.Mesh :=
  mkActor [] "CA1" "brain region" None None.

(** An actor of the same name that does meet the plane. *)
Definition namesake : Actor Polylines.Mesh :=
  mkActor [[Vec3 0 0 0; Vec3 1 0 0]] "CA1" "brain region" None None.

(** An actor with a modified mesh next to its original one. *)
Definition halved : Actor Polylines.Mesh :=
  mkActor [[Vec3 0 1 0; Vec3 1 1 0]; [Vec3 5 5 0]] "TH" "brain region"
          (Some [[Vec3 0 1 0; Vec3 1 1 0]]) None.

(** The plane [from_norm] builds at the origin for the normal (0,0,1): the
    lowest non-zero index is 2, so u0 = (normal[2], 0, -normal[0]). *)
Definition z_plane : Plane.t :=
  let n := Vec3 0 0 1 in
  let u := Vec3 1 0 (- 0) in
  Plane.mk zeros3 u (cross n u) (cross u (cross n u))
           (T (vstack u (cross n u))).

End Samples.

(** ** class Scene2D (src/bgheatmaps/scene2d.py)

    The scene as a container of actors: [add], [remove], [get_actors],
    [clean_actors] and [clean_renderables].  Actors are Python objects
    compared by identity; they form a type with decidable equality whose
    attributes are read through the interface [Brainrender]. *)

Module Scene2D.

(** A Python argument that is one value or a list of values, and
    brainrender's [listify], which wraps a single value into a list. *)
Inductive arg (X : Type) : Type :=
  | One (x : X)
  | Many (xs : list X).

Arguments One {X}.
Arguments Many {X}.

Definition listify {X : Type} (a : arg X) : list X :=
  match a with
  | One x => [x]
  | Many xs => xs
  end.

(** What brainrender's [return_list_smart] returns: [None] for no element,
    the element itself for one, the list otherwise. *)
Inductive smart (X : Type) : Type :=
  | smart_None
  | smart_one (x : X)
  | smart_list (xs : list X).

Arguments smart_None {X}.
Arguments smart_one {X}.
Arguments smart_list {X}.

Definition return_list_smart {X : Type} (lst : list X) : smart X :=
  match lst with
  | [] => smart_None
  | [x] => smart_one x
  | _ => smart_list lst
  end.

(** The [names] and [classes] keyword arguments of [add]: [None], one
    string, or a list whose entries may be [None]. *)
Inductive labels : Type :=
  | labels_None
  | labels_str (s : string)
  | labels_list (l : list (option string)).

(** Python truth value of such an argument and of an optional string. *)
Definition labels_truthy (x : labels) : bool :=
  match x with
  | labels_None => false
  | labels_str s => negb (String.eqb s "")
  | labels_list l => negb (Nat.eqb (length l) 0)
  end.

Definition str_truthy (x : option string) : bool :=
  match x with
  | None => false
  | Some s => negb (String.eqb s "")
  end.

(** [listify(x or [None for a in items])] *)
Definition labels_for {I : Type} (x : labels) (items : list I)
    : list (option string) :=
  if labels_truthy x then
    match x with
    | labels_str s => [Some s]
    | labels_list l => l
    | labels_None => []
    end
  else map (fun _ => None) items.

(** The only exception [add] raises itself. *)
Inductive add_exn : Set := ValueError.

(** Actor objects of type [A] over vedo objects of type [V]: the attributes
    the scene reads, and the constructors and loaders [add] calls.
    [Actor_ obj name br_class is_text] is
    [Actor(obj, name=, br_class=, is_text=)], [Volume_] is brainrender's
    [Volume(obj, name=, br_class=)], [Path_name p] is [Path(p).name]. *)
Class Brainrender (A V : Type) : Type := {
  actor_eq_dec :: EqDecision A;
  Actor_name : A -> string;
  Actor_br_class : A -> string;
  Actor_is_text : A -> bool;
  Actor_mesh : A -> V;
  Actor_ : V -> option string -> option string -> bool -> A;
  Volume_ : V -> option string -> option string -> A;
  load_mesh_from_file : string -> V;
  Path_name : string -> string
}.

(** The items [add] accepts, by the branch of its [isinstance] chain that
    takes them: [None], a vedo [Mesh] or [Assembly], a [Text2D], an object
    of a class called "Volume" that is not brainrender's, an [Actor], a
    [str] or [Path], anything else. *)
Inductive item (A V : Type) : Type :=
  | item_None
  | item_Mesh (m : V)
  | item_Text2D (t : V)
  | item_Volume (v : V)
  | item_Actor (a : A)
  | item_path (p : string)
  | item_other (o : V).

Arguments item_None {A V}.
Arguments item_Mesh {A V}.
Arguments item_Text2D {A V}.
Arguments item_Volume {A V}.
Arguments item_Actor {A V}.
Arguments item_path {A V}.
Arguments item_other {A V}.

Section WithBrainrender.
Context {A V : Type} `{!Brainrender A V}.

(** [self.actors] is the only attribute the modelled methods touch. *)
Record t : Type := mk { actors : list A }.

(** The body of the loop of [add] (lines 87-123): the actor to append, if
    any. *)
Definition add_item (it : item A V) (name _class : option string)
    : add_exn + option A :=
  match it with
  | item_None => inr None
  | item_Mesh m => inr (Some (Actor_ m name _class false))
  | item_Text2D t => inr (Some (Actor_ t name _class true))
  | item_Volume v => inr (Some (Volume_ v name _class))
  | item_Actor a => inr (Some a)
  | item_path p =>
      let mesh := load_mesh_from_file p in
      let name := if str_truthy name then name else Some (Path_name p) in
      let _class :=
        if str_truthy _class then _class else Some "from file" in
      inr (Some (Actor_ mesh name _class false))
  | item_other _ => inl ValueError
  end.

(** The loop over [zip(items, listify(names), listify(classes))]. *)
Fixpoint add_loop
    (zipped : list (item A V * option string * option string))
    (actors : list A) : add_exn + list A :=
  match zipped with
  | [] => inr actors
  | (it, name, _class) :: rest =>
      match add_item it name _class with
      | inl e => inl e
      | inr None => add_loop rest actors
      | inr (Some a) => add_loop rest (actors ++ [a])
      end
  end.

(** [Scene2D.add] (lines 67-127): the scene after the call, and the value
    returned or the exception raised.  The scene is extended only after the
    loop has finished. *)
Definition add (self : t) (items : list (item A V)) (names classes : labels)
    : t * (add_exn + smart A) :=
  let names := labels_for names items in
  let classes := labels_for classes items in
  match add_loop (zip (zip items names) classes) [] with
  | inl e => (self, inl e)
  | inr new =>
      (mk (actors self ++ new), inr (return_list_smart new))
  end.

(** [list.index]: the first position of an equal element; [None] where
    Python raises [ValueError]. *)
Fixpoint index (x : A) (l : list A) : option nat :=
  match l with
  | [] => None
  | y :: l => if decide (y = x) then Some 0%nat else S <$> index x l
  end.

(** One iteration of the loop of [remove] (lines 134-140): the scene and
    the actors reported as not removable so far. *)
Definition remove_one (acc : t * list A) (act : A) : t * list A :=
  let '(self, reported) := acc in
  match index act (actors self) with
  | Some i => (mk (delete i (actors self)), reported)
  | None => (self, reported ++ [act])
  end.

(** [Scene2D.remove] (lines 129-140): the scene after the call and the
    actors for which "Could not remove" was printed. *)
Definition remove (self : t) (acts : list A) : t * list A :=
  foldl remove_one (self, []) acts.

(** [Scene2D.get_actors] (lines 145-159) *)
Definition get_actors (self : t) (name br_class : option (arg string))
    : list A :=
  let matches := actors self in
  let matches :=
    match name with
    | Some name =>
        let name := listify name in
        filter (fun m => Actor_name m ∈ name) matches
    | None => matches
    end in
  match br_class with
  | Some br_class =>
      let br_class := listify br_class in
      filter (fun m => Actor_br_class m ∈ br_class) matches
  | None => matches
  end.

(** [Scene2D.clean_actors] (lines 249-254) *)
Definition clean_actors (self : t) : list A :=
  filter (fun a => Actor_is_text a = false) (actors self).

(** [Scene2D.clean_renderables] (lines 256-261) *)
Definition clean_renderables (self : t) : list V :=
  map Actor_mesh (filter (fun a => Actor_is_text a = false) (actors self)).

End WithBrainrender.

Arguments t A : clear implicits.

End Scene2D.

(** A concrete scene: actors are numbers, named by their decimal
    representation. *)
Module Numbered.

#[global] Instance brainrender : Scene2D.Brainrender nat nat := {|
  Scene2D.Actor_name a := pretty a;
  Scene2D.Actor_br_class a := if Nat.even a then "brain region" else "from file";
  Scene2D.Actor_is_text a := Nat.eqb a 0;
  Scene2D.Actor_mesh a := a;
  Scene2D.Actor_ v _ _ _ := (v + 100)%nat;
  Scene2D.Volume_ v _ _ := (v + 200)%nat;
  Scene2D.load_mesh_from_file _ := 7%nat;
  Scene2D.Path_name p := p
|}.

End Numbered.

(** * Properties *)

(** ** Vector algebra behind the constructor *)

Section VectorFacts.
Local Open Scope R_scope.

Lemma vec3_eq (a b : vec3) :
  vx a = vx b -> vy a = vy b -> vz a = vz b -> a = b.
Proof. destruct a, b; simpl; intros -> -> ->; reflexivity. Qed.

Lemma dot_self_nonneg (a : vec3) : 0 <= dot a a.
Proof. unfold dot. nra. Qed.

Lemma linalg_norm_dot (a : vec3) : linalg_norm a = sqrt (dot a a).
Proof. reflexivity. Qed.

Lemma linalg_norm_nonneg (a : vec3) : 0 <= linalg_norm a.
Proof. apply sqrt_pos. Qed.

Lemma linalg_norm_sqr (a : vec3) : linalg_norm a * linalg_norm a = dot a a.
Proof. rewrite linalg_norm_dot. apply sqrt_sqrt, dot_self_nonneg. Qed.

Lemma linalg_norm_zeros3 : linalg_norm zeros3 = 0.
Proof.
  unfold linalg_norm; simpl.
  replace (0 * 0 + 0 * 0 + 0 * 0) with 0 by ring. apply sqrt_0.
Qed.

Lemma linalg_norm_eq_0 (a : vec3) : linalg_norm a = 0 -> a = zeros3.
Proof.
  intros H. pose proof (linalg_norm_sqr a) as Hs. rewrite H in Hs.
  unfold dot in Hs. apply vec3_eq; simpl; nra.
Qed.

Lemma linalg_norm_pos (a : vec3) : a <> zeros3 -> 0 < linalg_norm a.
Proof.
  intros Ha. destruct (linalg_norm_nonneg a) as [H|H]; [exact H|].
  exfalso. apply Ha, linalg_norm_eq_0. congruence.
Qed.

Lemma linalg_norm_of_dot_1 (a : vec3) : dot a a = 1 -> linalg_norm a = 1.
Proof. intros H. rewrite linalg_norm_dot, H. apply sqrt_1. Qed.

Lemma dot_scale (s r : R) (a b : vec3) :
  dot (scale s a) (scale r b) = s * r * dot a b.
Proof. unfold dot, scale; simpl. ring. Qed.

Lemma normalized_nonzero (a : vec3) :
  a <> zeros3 -> normalized a = Some (scale (/ linalg_norm a) a).
Proof.
  intros Ha. unfold normalized, true_divide.
  pose proof (linalg_norm_pos a Ha).
  destruct (decide (linalg_norm a = 0)) as [E|_]; [lra|].
  f_equal. apply vec3_eq; simpl; unfold Rdiv; ring.
Qed.

Lemma normalized_zeros3 : normalized zeros3 = None.
Proof.
  unfold normalized, true_divide. rewrite linalg_norm_zeros3.
  destruct (decide (0 = 0)); [reflexivity|contradiction].
Qed.

Lemma normalized_Some_inv (a a' : vec3) :
  normalized a = Some a' ->
  a <> zeros3 /\ a' = scale (/ linalg_norm a) a.
Proof.
  intros H. assert (a <> zeros3) as Ha.
  { intros ->. rewrite normalized_zeros3 in H. discriminate. }
  split; [exact Ha|]. rewrite (normalized_nonzero a Ha) in H. congruence.
Qed.

Lemma normalized_unit_length (a a' : vec3) :
  normalized a = Some a' -> linalg_norm a' = 1.
Proof.
  intros [Ha ->]%normalized_Some_inv.
  apply linalg_norm_of_dot_1. rewrite dot_scale, <- linalg_norm_sqr.
  pose proof (linalg_norm_pos a Ha). field. lra.
Qed.

Lemma normalized_of_unit (a : vec3) :
  linalg_norm a = 1 -> normalized a = Some a.
Proof.
  intros H. unfold normalized, true_divide. rewrite H.
  destruct (decide (1 = 0)) as [E|_]; [lra|].
  f_equal. apply vec3_eq; simpl; field.
Qed.

Lemma dot_cross_left (a b : vec3) : dot a (cross a b) = 0.
Proof. unfold dot, cross; simpl. ring. Qed.

Lemma dot_cross_right (a b : vec3) : dot b (cross a b) = 0.
Proof. unfold dot, cross; simpl. ring. Qed.

(** Lagrange's identity. *)
Lemma dot_cross_cross (a b : vec3) :
  dot (cross a b) (cross a b) = dot a a * dot b b - dot a b * dot a b.
Proof. unfold dot, cross; simpl. ring. Qed.

Lemma isclose_0 (x : R) : isclose x 0 = true <-> Rabs x <= atol.
Proof.
  unfold isclose. rewrite bool_decide_eq_true.
  replace (x - 0) with x by ring. rewrite Rabs_R0.
  replace (atol + rtol * 0) with atol by ring. reflexivity.
Qed.

Lemma isclose_0_false (x : R) : isclose x 0 = false <-> atol < Rabs x.
Proof.
  rewrite <- not_true_iff_false, isclose_0. split; intros H; lra.
Qed.

End VectorFacts.

(** ** The constructor *)

Section Constructor.
Import Plane.
Local Open Scope R_scope.

Lemma init_inr_inv (origin a b : vec3) (self : Plane.t) :
  __init__ origin a b = inr self ->
  exists a' b',
    normalized a = Some a' /\ normalized b = Some b' /\
    Rabs (dot a' b') <= atol /\
    self = Plane.mk origin a' b' (cross a' b') (T (vstack a b)).
Proof.
  unfold __init__.
  destruct (normalized a) as [a'|]; [|discriminate].
  destruct (normalized b) as [b'|]; [|discriminate].
  destruct (isclose (dot a' b') 0) eqn:E; [|discriminate].
  intros [= <-]. exists a', b'. apply isclose_0 in E. auto.
Qed.

Lemma init_orthonormal (origin a b : vec3) :
  linalg_norm a = 1 -> linalg_norm b = 1 -> dot a b = 0 ->
  __init__ origin a b =
  inr (Plane.mk origin a b (cross a b) (T (vstack a b))).
Proof.
  intros Ha Hb Hab. unfold __init__.
  rewrite (normalized_of_unit a Ha), (normalized_of_unit b Hb).
  assert (isclose (dot a b) 0 = true) as ->; [|reflexivity].
  apply isclose_0. rewrite Hab, Rabs_R0. unfold atol. lra.
Qed.

(** The matrix keeps the constructor's arguments as its columns. *)
Lemma init_M_columns (origin a b : vec3) (self : Plane.t) :
  __init__ origin a b = inr self ->
  col0 (M self) = a /\ col1 (M self) = b.
Proof.
  intros (a' & b' & _ & _ & _ & ->)%init_inr_inv.
  destruct a, b; split; reflexivity.
Qed.

Lemma matmul_dots (p : vec3) (m : mat32) :
  matmul p m = Vec2 (dot p (col0 m)) (dot p (col1 m)).
Proof. reflexivity. Qed.

Lemma P3toP2_dots (self : Plane.t) (ps : list vec3) :
  P3toP2 self ps =
  map (fun p => Vec2 (dot (sub p (center self)) (col0 (M self)))
                     (dot (sub p (center self)) (col1 (M self)))) ps.
Proof. reflexivity. Qed.

(** With arguments of unit length the columns are the stored axes. *)
Lemma P3toP2_unit_arguments (origin a b : vec3) (self : Plane.t)
    (ps : list vec3) :
  linalg_norm a = 1 -> linalg_norm b = 1 ->
  __init__ origin a b = inr self ->
  P3toP2 self ps =
  map (fun p => Vec2 (dot (sub p origin) (u self))
                     (dot (sub p origin) (v self))) ps.
Proof.
  intros Ha Hb (a' & b' & Ea & Eb & _ & ->)%init_inr_inv.
  rewrite (normalized_of_unit a Ha) in Ea.
  rewrite (normalized_of_unit b Hb) in Eb.
  injection Ea as <-. injection Eb as <-.
  rewrite P3toP2_dots. destruct a, b. reflexivity.
Qed.

Lemma linalg_norm_2_0_0 : linalg_norm (Vec3 2 0 0) = 2.
Proof.
  unfold linalg_norm; simpl.
  replace (2 * 2 + 0 * 0 + 0 * 0) with (2 * 2) by ring.
  apply sqrt_square. lra.
Qed.

Lemma linalg_norm_1_0_0 : linalg_norm (Vec3 1 0 0) = 1.
Proof. apply linalg_norm_of_dot_1. unfold dot; simpl. ring. Qed.

Lemma linalg_norm_0_1_0 : linalg_norm (Vec3 0 1 0) = 1.
Proof. apply linalg_norm_of_dot_1. unfold dot; simpl. ring. Qed.

Lemma linalg_norm_0_0_1 : linalg_norm (Vec3 0 0 1) = 1.
Proof. apply linalg_norm_of_dot_1. unfold dot; simpl. ring. Qed.

Lemma normalized_2_0_0 : normalized (Vec3 2 0 0) = Some (Vec3 1 0 0).
Proof.
  unfold normalized, true_divide. rewrite linalg_norm_2_0_0.
  destruct (decide (2 = 0)) as [E|_]; [lra|].
  f_equal. apply vec3_eq; simpl; field.
Qed.

(** C1 (the code at an input where the claim and the code part ways): built
    from the arguments u = (2,0,0), v = (0,1,0) at the origin, the plane has
    the unit axes (1,0,0) and (0,1,0), but the columns of its matrix are the
    arguments as passed, (2,0,0) and (0,1,0); the point
    p = origin + 1*u + 1*v (with the unit axes) is projected to (2, 1), not
    to (1, 1). *)
Theorem C1_matrix_columns_are_the_unscaled_arguments :
  exists self : Plane.t,
    __init__ zeros3 (Vec3 2 0 0) (Vec3 0 1 0) = inr self /\
    u self = Vec3 1 0 0 /\ v self = Vec3 0 1 0 /\
    col0 (M self) = Vec3 2 0 0 /\ col1 (M self) = Vec3 0 1 0 /\
    col0 (M self) <> u self /\
    let p := add (center self) (add (scale 1 (u self)) (scale 1 (v self))) in
    P3toP2 self [p] = [Vec2 2 1] /\ P3toP2 self [p] <> [Vec2 1 1].
Proof.
  eexists. split.
  { unfold __init__. rewrite normalized_2_0_0.
    rewrite (normalized_of_unit _ linalg_norm_0_1_0).
    assert (isclose (dot (Vec3 1 0 0) (Vec3 0 1 0)) 0 = true) as ->;
      [|reflexivity].
    apply isclose_0. unfold dot; simpl.
    replace (1 * 0 + 0 * 1 + 0 * 0) with 0 by ring.
    rewrite Rabs_R0. unfold atol. lra. }
  simpl. repeat split.
  - intros [= E]. lra.
  - unfold P3toP2, matmul, sub, add, scale, zeros3; simpl.
    f_equal. f_equal; ring.
  - unfold P3toP2, matmul, sub, add, scale, zeros3; simpl.
    intros [= E _]. lra.
Qed.

(** C2: the constructor fails whenever the normalized arguments have
    |u . v| above 1e-6 (the assertion already fails above numpy's absolute
    tolerance 1e-8); the exception is the assertion's. *)
Theorem C2_init_rejects_non_orthogonal_axes
    (origin a b a' b' : vec3)
    (Ha : normalized a = Some a')
    (Hb : normalized b = Some b')
    (Hdot : Rabs (dot a' b') > 1e-6) :
  __init__ origin a b = inl AssertionError.
Proof.
  unfold __init__. rewrite Ha, Hb.
  assert (isclose (dot a' b') 0 = false) as ->; [|reflexivity].
  apply isclose_0_false. unfold atol. lra.
Qed.

Lemma C2_witness_parallel_axes :
  normalized (Vec3 1 0 0) = Some (Vec3 1 0 0) /\
  Rabs (dot (Vec3 1 0 0) (Vec3 1 0 0)) > 1e-6 /\
  __init__ zeros3 (Vec3 1 0 0) (Vec3 1 0 0) = inl AssertionError.
Proof.
  assert (normalized (Vec3 1 0 0) = Some (Vec3 1 0 0)) as Hn
    by exact (normalized_of_unit _ linalg_norm_1_0_0).
  assert (Rabs (dot (Vec3 1 0 0) (Vec3 1 0 0)) > 1e-6) as Hd.
  { unfold dot; simpl.
    replace (1 * 1 + 0 * 0 + 0 * 0) with 1 by ring. rewrite Rabs_R1. lra. }
  split; [exact Hn|]. split; [exact Hd|].
  exact (C2_init_rejects_non_orthogonal_axes
           zeros3 (Vec3 1 0 0) (Vec3 1 0 0) (Vec3 1 0 0) (Vec3 1 0 0)
           Hn Hn Hd).
Defined.

(** A zero argument makes the normalized axis non-finite and the assertion
    fail as well. *)
Lemma init_zero_axis (origin a : vec3) :
  __init__ origin zeros3 a = inl AssertionError /\
  __init__ origin a zeros3 = inl AssertionError.
Proof.
  unfold __init__. rewrite normalized_zeros3.
  split; [reflexivity|]. destruct (normalized a); reflexivity.
Qed.

(** C3: [from_norm] fails on the zero normal: no entry is non-zero, and
    indexing the empty index array raises. *)
Theorem C3_from_norm_rejects_zero_normal (origin : vec3) :
  from_norm origin zeros3 = inl IndexError.
Proof.
  unfold from_norm, where_nonzero, zeros3; simpl.
  destruct (decide (0 = 0)) as [_|N]; [reflexivity|contradiction].
Qed.

End Constructor.

(** ** The invariant of constructed planes *)

Section Invariant.
Import Plane Slicer.
Local Open Scope R_scope.

Lemma approx_refl (a : R) : approx a a.
Proof.
  unfold approx. replace (a - a) with 0 by ring. rewrite Rabs_R0.
  pose proof (Rabs_pos a). unfold atol, rtol. nra.
Qed.

Lemma approx_0 (x : R) : approx x 0 <-> Rabs x <= atol.
Proof.
  unfold approx. replace (x - 0) with x by ring. rewrite Rabs_R0.
  replace (atol + rtol * 0) with atol by ring. reflexivity.
Qed.

Lemma from_norm_is_init (origin norm : vec3) (self : Plane.t) :
  from_norm origin norm = inr self ->
  exists a b, __init__ origin a b = inr self.
Proof.
  unfold from_norm, bind.
  destruct (first_index (where_nonzero norm)) as [|m]; [discriminate|].
  destruct (getitem norm m) as [|norm_m]; [discriminate|].
  destruct (setitem zeros3 _ norm_m) as [|u1]; [discriminate|].
  destruct (getitem norm _) as [|norm_n]; [discriminate|].
  destruct (setitem u1 m _) as [|u2]; [discriminate|].
  destruct (normalized norm) as [norm'|]; [|discriminate].
  destruct (normalized u2) as [u'|]; [|discriminate].
  eauto.
Qed.

Lemma Rabs_le_bounds (x b : R) : Rabs x <= b -> - b <= x <= b.
Proof. unfold Rabs. destruct (Rcase_abs x); lra. Qed.

(** The length of u x v for unit u, v that are orthogonal up to [atol]. *)
Lemma cross_nearly_unit (a b : vec3) :
  linalg_norm a = 1 -> linalg_norm b = 1 -> Rabs (dot a b) <= atol ->
  1 - atol <= linalg_norm (cross a b) <= 1.
Proof.
  intros Ha Hb Hab.
  pose proof (linalg_norm_nonneg (cross a b)) as Hr.
  pose proof (linalg_norm_sqr (cross a b)) as Hs.
  rewrite dot_cross_cross, <- !linalg_norm_sqr, Ha, Hb in Hs.
  apply Rabs_le_bounds in Hab. unfold atol in *.
  set (r := linalg_norm (cross a b)) in *.
  set (d := dot a b) in *.
  assert (d * d <= 1e-8 * 1e-8) by nra.
  split; nra.
Qed.

Lemma init_orthonormal_invariant (origin a b : vec3) (self : Plane.t) :
  __init__ origin a b = inr self ->
  linalg_norm (u self) = 1 /\ linalg_norm (v self) = 1 /\
  normal self = cross (u self) (v self) /\
  Rabs (dot (u self) (v self)) <= atol /\
  dot (u self) (normal self) = 0 /\ dot (v self) (normal self) = 0 /\
  1 - atol <= linalg_norm (normal self) <= 1.
Proof.
  intros (a' & b' & Ea & Eb & Hab & ->)%init_inr_inv. simpl.
  pose proof (normalized_unit_length _ _ Ea) as Ha.
  pose proof (normalized_unit_length _ _ Eb) as Hb.
  repeat split; auto using dot_cross_left, dot_cross_right;
    apply cross_nearly_unit; assumption.
Qed.

Lemma after_calls_same `{!Vedo Mesh} (fmt : vec3 -> string)
    (bnds : Actor Mesh -> Bounds) (self : Plane.t) (cs : list call) :
  after_calls fmt bnds self cs = self.
Proof.
  unfold after_calls. induction cs as [|c cs IH]; simpl; [reflexivity|].
  destruct c; simpl; exact IH.
Qed.

(** C4: a plane returned by either constructor has unit axes u and v, the
    normal u x v of length 1 up to tolerance, u . v within numpy's tolerance
    of 0 and u . normal = v . normal = 0; the plane left behind by any
    sequence of method calls is the same plane, so the invariant holds for
    its whole lifetime. *)
Theorem C4_constructed_plane_stays_orthonormal `{!Vedo Mesh}
    (fmt : vec3 -> string) (bnds : Actor Mesh -> Bounds)
    (self : Plane.t) (cs : list call)
    (Hself : constructed self) :
  let self' := after_calls fmt bnds self cs in
  self' = self /\
  orthonormal self' /\
  linalg_norm (u self') = 1 /\ linalg_norm (v self') = 1 /\
  dot (u self') (normal self') = 0 /\ dot (v self') (normal self') = 0.
Proof.
  simpl. rewrite after_calls_same. split; [reflexivity|].
  assert (exists origin a b, __init__ origin a b = inr self)
    as (origin & a & b & Hinit).
  { destruct Hself as [origin a b self H|origin norm self H]; [eauto|].
    apply from_norm_is_init in H as (a & b & H). eauto. }
  apply init_orthonormal_invariant in Hinit
    as (Hu & Hv & Hn & Huv & Hun & Hvn & Hnn).
  split; [|auto].
  split.
  - rewrite Hu. apply approx_refl.
  - rewrite Hv. apply approx_refl.
  - unfold approx. rewrite Rabs_R1. apply Rabs_le.
    unfold atol, rtol in *. lra.
  - exact Hn.
  - apply approx_0, Huv.
  - rewrite Hun. apply approx_refl.
  - rewrite Hvn. apply approx_refl.
Qed.

End Invariant.

(** ** Axes derived from a normal *)

Section FromNorm.
Import Plane.
Local Open Scope R_scope.

(** What [from_norm] returns once the unnormalized u is known: u orthogonal
    to the normal by construction, both non-zero. *)
Lemma init_derived_axes (origin norm u0 : vec3) :
  norm <> zeros3 -> u0 <> zeros3 -> dot u0 norm = 0 ->
  exists norm1 u1,
    normalized norm = Some norm1 /\ normalized u0 = Some u1 /\
    dot u1 norm = 0 /\
    __init__ origin u1 (cross norm1 u1) =
    inr (Plane.mk origin u1 (cross norm1 u1) (cross u1 (cross norm1 u1))
           (T (vstack u1 (cross norm1 u1)))).
Proof.
  intros Hn Hu Hdot.
  pose proof (normalized_nonzero norm Hn) as En.
  pose proof (normalized_nonzero u0 Hu) as Eu.
  eexists _, _. split; [exact En|]. split; [exact Eu|].
  pose proof (normalized_unit_length _ _ En) as Ln.
  pose proof (normalized_unit_length _ _ Eu) as Lu.
  set (norm1 := scale (/ linalg_norm norm) norm) in *.
  set (u1 := scale (/ linalg_norm u0) u0) in *.
  assert (dot u1 norm = 0) as H1.
  { unfold u1, dot, scale; simpl. unfold dot in Hdot.
    transitivity (/ linalg_norm u0 *
                  (vx u0 * vx norm + vy u0 * vy norm + vz u0 * vz norm));
      [ring|]. rewrite Hdot. ring. }
  assert (dot norm1 u1 = 0) as H2.
  { unfold norm1, u1. rewrite dot_scale.
    replace (dot norm u0) with (dot u0 norm)
      by (unfold dot; ring). rewrite Hdot. ring. }
  split; [exact H1|].
  apply init_orthonormal.
  - exact Lu.
  - apply linalg_norm_of_dot_1. rewrite dot_cross_cross, H2.
    rewrite <- !linalg_norm_sqr, Ln, Lu. ring.
  - apply dot_cross_right.
Qed.

(** C5: for a non-zero normal, [from_norm] takes the lowest index m of a
    non-zero entry and n = (m+1) mod 3, builds u0 with u0[n] = normal[m],
    u0[m] = -normal[n] and zero elsewhere, and returns the plane whose u is
    u0 normalized and whose v is (normal normalized) x u; u0 . normal = 0 and
    u . normal = 0 hold exactly, and u, v depend on the normal alone. *)
Theorem C5_from_norm_derives_axes (origin norm : vec3)
    (Hnorm : norm <> zeros3) :
  exists (m : nat) (norm_m norm_n : R) (u0 u1 norm1 : vec3) (self : Plane.t),
    let n := ((m + 1) mod 3)%nat in
    getitem norm m = inr norm_m /\ norm_m <> 0 /\
    (forall j : nat, (j < m)%nat -> getitem norm j = inr 0) /\
    getitem norm n = inr norm_n /\
    getitem u0 n = inr norm_m /\ getitem u0 m = inr (- norm_n) /\
    (forall j : nat, (j < 3)%nat -> j <> m -> j <> n -> getitem u0 j = inr 0) /\
    normalized u0 = Some u1 /\ normalized norm = Some norm1 /\
    from_norm origin norm = inr self /\
    center self = origin /\ u self = u1 /\ v self = cross norm1 u1 /\
    dot u0 norm = 0 /\ dot (u self) norm = 0 /\
    (forall (origin' : vec3) (self' : Plane.t),
        from_norm origin' norm = inr self' ->
        u self' = u self /\ v self' = v self).
Proof.
  destruct norm as [x y z].
  assert (forall u0 : vec3, u0 <> zeros3 -> dot u0 (Vec3 x y z) = 0 ->
          exists norm1 u1,
            normalized (Vec3 x y z) = Some norm1 /\
            normalized u0 = Some u1 /\ dot u1 (Vec3 x y z) = 0 /\
            forall o, __init__ o u1 (cross norm1 u1) =
              inr (Plane.mk o u1 (cross norm1 u1)
                     (cross u1 (cross norm1 u1))
                     (T (vstack u1 (cross norm1 u1))))) as Hax.
  { intros u0 Hu0 Hd.
    destruct (init_derived_axes origin _ u0 Hnorm Hu0 Hd)
      as (norm1 & u1 & En & Eu & H1 & _).
    exists norm1, u1. repeat split; try assumption.
    intros o.
    destruct (init_derived_axes o _ u0 Hnorm Hu0 Hd)
      as (norm1' & u1' & En' & Eu' & _ & Hinit).
    congruence. }
  destruct (decide (x = 0)) as [Hx|Hx];
    [destruct (decide (y = 0)) as [Hy|Hy]|].
  - (* m = 2, n = 0 *)
    assert (z <> 0) as Hz.
    { intros ->. apply Hnorm. subst. reflexivity. }
    destruct (Hax (Vec3 z 0 (- x))) as (norm1 & u1 & En & Eu & H1 & Hinit).
    { intros [= E _]. contradiction. }
    { unfold dot; simpl. ring. }
    assert (forall o, from_norm o (Vec3 x y z) =
              inr (Plane.mk o u1 (cross norm1 u1)
                     (cross u1 (cross norm1 u1))
                     (T (vstack u1 (cross norm1 u1))))) as Hfn.
    { intros o. unfold from_norm, where_nonzero; simpl.
      destruct (decide (x = 0)); [|contradiction].
      destruct (decide (y = 0)); [|contradiction].
      destruct (decide (z = 0)); [contradiction|]. simpl.
      rewrite En, Eu. apply Hinit. }
    exists 2%nat, z, x, (Vec3 z 0 (- x)), u1, norm1,
      (Plane.mk origin u1 (cross norm1 u1) (cross u1 (cross norm1 u1))
         (T (vstack u1 (cross norm1 u1)))).
    simpl. repeat split; try reflexivity; try assumption.
    + intros [|[|j]] Hj; simpl; try (subst; reflexivity). lia.
    + intros [|[|[|j]]] Hj ? ?; simpl; try reflexivity; try lia.
    + apply Hfn.
    + unfold dot; simpl. ring.
    + rewrite Hfn in H. injection H as <-. reflexivity.
    + rewrite Hfn in H. injection H as <-. reflexivity.
  - (* m = 1, n = 2 *)
    destruct (Hax (Vec3 0 (- z) y)) as (norm1 & u1 & En & Eu & H1 & Hinit).
    { intros [= _ E]. contradiction. }
    { unfold dot; simpl. ring. }
    assert (forall o, from_norm o (Vec3 x y z) =
              inr (Plane.mk o u1 (cross norm1 u1)
                     (cross u1 (cross norm1 u1))
                     (T (vstack u1 (cross norm1 u1))))) as Hfn.
    { intros o. unfold from_norm, where_nonzero; simpl.
      destruct (decide (x = 0)); [|contradiction].
      destruct (decide (y = 0)); [contradiction|]. simpl.
      rewrite En, Eu. apply Hinit. }
    exists 1%nat, y, z, (Vec3 0 (- z) y), u1, norm1,
      (Plane.mk origin u1 (cross norm1 u1) (cross u1 (cross norm1 u1))
         (T (vstack u1 (cross norm1 u1)))).
    simpl. repeat split; try reflexivity; try assumption.
    + intros [|j] Hj; simpl; try (subst; reflexivity). lia.
    + intros [|[|[|j]]] Hj ? ?; simpl; try reflexivity; try lia.
    + apply Hfn.
    + unfold dot; simpl. ring.
    + rewrite Hfn in H. injection H as <-. reflexivity.
    + rewrite Hfn in H. injection H as <-. reflexivity.
  - (* m = 0, n = 1 *)
    destruct (Hax (Vec3 (- y) x 0)) as (norm1 & u1 & En & Eu & H1 & Hinit).
    { intros [= _ E]. contradiction. }
    { unfold dot; simpl. ring. }
    assert (forall o, from_norm o (Vec3 x y z) =
              inr (Plane.mk o u1 (cross norm1 u1)
                     (cross u1 (cross norm1 u1))
                     (T (vstack u1 (cross norm1 u1))))) as Hfn.
    { intros o. unfold from_norm, where_nonzero; simpl.
      destruct (decide (x = 0)); [contradiction|]. simpl.
      rewrite En, Eu. apply Hinit. }
    exists 0%nat, x, y, (Vec3 (- y) x 0), u1, norm1,
      (Plane.mk origin u1 (cross norm1 u1) (cross u1 (cross norm1 u1))
         (T (vstack u1 (cross norm1 u1)))).
    simpl. repeat split; try reflexivity; try assumption.
    + intros j Hj. lia.
    + intros [|[|[|j]]] Hj ? ?; simpl; try reflexivity; try lia.
    + apply Hfn.
    + unfold dot; simpl. ring.
    + rewrite Hfn in H. injection H as <-. reflexivity.
    + rewrite Hfn in H. injection H as <-. reflexivity.
Qed.

End FromNorm.

(** ** The bounding quad *)

Section BoundingQuad.
Import Plane Slicer.
Local Open Scope R_scope.

Lemma max3_Rmax (a b c : R) : max3 a b c = Rmax (Rmax a b) c.
Proof.
  unfold max3, Rmax.
  destruct (decide (a < b)) as [H1|H1]; destruct (Rle_dec a b) as [H2|H2];
    try lra;
    repeat match goal with
           | |- context [decide (?x < ?y)] => destruct (decide (x < y))
           | |- context [Rle_dec ?x ?y] => destruct (Rle_dec x y)
           end; lra.
Qed.

(** C8: the plane mesh is the quad vedo builds at the plane's center, with
    the plane's normal, and with both sides equal to 4/3 of the largest
    extent of the actor's bounding box; the same length is stored as the
    width of the returned actor. *)
Theorem C8_to_mesh_square_quad `{!Vedo Mesh} (fmt : vec3 -> string)
    (bnds : Actor Mesh -> Bounds) (self : Plane.t) (actor : Actor Mesh) :
  let b := bnds actor in
  let side :=
    Rmax (Rmax (xmax b - xmin b) (ymax b - ymin b)) (zmax b - zmin b)
    * 4 / 3 in
  mesh (to_mesh fmt bnds self actor) =
    vd_Plane (center self) (normal self) side side /\
  width (to_mesh fmt bnds self actor) = Some side /\
  br_class (to_mesh fmt bnds self actor) = "plane_mesh".
Proof.
  intros b side. unfold to_mesh; simpl. fold b.
  assert (max3 (xmax b - xmin b) (ymax b - ymin b) (zmax b - zmin b) +
          max3 (xmax b - xmin b) (ymax b - ymin b) (zmax b - zmin b) / 3
          = side) as ->.
  { unfold side. rewrite max3_Rmax. field. }
  auto.
Qed.

End BoundingQuad.

(** ** Keys of the projection dictionary *)

Section Keys.

Lemma chars_app (s1 s2 : string) : chars (s1 +:+ s2) = chars s1 ++ chars s2.
Proof.
  induction s1 as [|c s1 IH]; [reflexivity|].
  change (String c s1 +:+ s2) with (String c (s1 +:+ s2)).
  simpl. f_equal. exact IH.
Qed.

Lemma chars_inj (s1 s2 : string) : chars s1 = chars s2 -> s1 = s2.
Proof.
  intros H. rewrite <- (String.string_of_list_ascii_of_string s1).
  rewrite <- (String.string_of_list_ascii_of_string s2). f_equal. exact H.
Qed.

(** Two splittings of a list at an element that does not occur after the
    splitting point agree. *)
Lemma split_at_last {A : Type} (x : A) (l1 l2 r1 r2 : list A) :
  x ∉ r1 -> x ∉ r2 -> l1 ++ x :: r1 = l2 ++ x :: r2 -> l1 = l2 /\ r1 = r2.
Proof.
  intros H1 H2. revert l2.
  induction l1 as [|a l1 IH]; intros [|b l2] E; simpl in E.
  - injection E as ->. auto.
  - injection E as <- ->. exfalso. apply H1.
    apply elem_of_app. right. apply elem_of_cons. auto.
  - injection E as -> <-. exfalso. apply H2.
    apply elem_of_app. right. apply elem_of_cons. auto.
  - injection E as -> E. destruct (IH _ E) as [-> ->]. auto.
Qed.

Lemma pretty_N_char_not_underscore (x : N) : pretty_N_char x <> "_"%char.
Proof. unfold pretty_N_char. repeat case_match; discriminate. Qed.

Lemma pretty_N_go_no_underscore (x : N) (s : string) :
  "_"%char ∉ chars s -> "_"%char ∉ chars (pretty_N_go x s).
Proof.
  revert s. induction (N.lt_wf_0 x) as [x _ IH]. intros s Hs.
  destruct (decide (x = 0)%N) as [->|Hx].
  - rewrite pretty_N_go_0. exact Hs.
  - rewrite pretty_N_go_step by lia. apply IH.
    + apply N.div_lt; lia.
    + simpl. intros [E|H]%elem_of_cons; [|contradiction].
      symmetry in E. exact (pretty_N_char_not_underscore _ E).
Qed.

Lemma pretty_nat_no_underscore (n : nat) : "_"%char ∉ chars (pretty n).
Proof.
  unfold pretty, pretty_nat, pretty, pretty_N.
  destruct (decide (N.of_nat n = 0)%N).
  - simpl. intros [E|H]%elem_of_cons; [discriminate|].
    exact (not_elem_of_nil _ H).
  - apply pretty_N_go_no_underscore. simpl. apply not_elem_of_nil.
Qed.

(** A key determines the actor name and the piece number it was built
    from. *)
Lemma segment_key_inj (nm1 nm2 : string) (n1 n2 : nat) :
  segment_key nm1 n1 = segment_key nm2 n2 -> nm1 = nm2 /\ n1 = n2.
Proof.
  assert (forall nm n, chars (segment_key nm n) =
            (chars nm ++ chars "_segment") ++ "_"%char :: chars (pretty n))
    as Hk.
  { intros nm n. unfold segment_key. rewrite !chars_app.
    rewrite <- (assoc_L (++)). reflexivity. }
  intros E. apply (f_equal chars) in E. rewrite !Hk in E.
  apply split_at_last in E as [E1 E2];
    [|apply pretty_nat_no_underscore..].
  apply app_inv_tail in E1. apply chars_inj in E1, E2.
  split; [exact E1|]. exact (inj pretty _ _ E2).
Qed.

End Keys.

(** ** Slicing and projecting *)

Section Projections.
Import Plane Slicer.
Context `{!Vedo Mesh}.
Implicit Types (self : Plane.t) (proj : gmap string (list vec2)).
Implicit Types (actor : Actor Mesh) (pieces : list Mesh).

Lemma enumerate_snoc {A : Type} (l : list A) (x : A) :
  enumerate (l ++ [x]) = enumerate l ++ [(length l, x)].
Proof.
  unfold enumerate. rewrite imap_app. simpl. rewrite Nat.add_0_r.
  reflexivity.
Qed.

Lemma project_pieces_snoc self nm pieces piece proj :
  project_pieces self nm (pieces ++ [piece]) proj =
  <[segment_key nm (length pieces) := emitted self piece]>
    (project_pieces self nm pieces proj).
Proof.
  unfold project_pieces. rewrite enumerate_snoc, foldl_app. reflexivity.
Qed.

Lemma segment_key_eq_iff (nm : string) (n1 n2 : nat) :
  segment_key nm n1 = segment_key nm n2 <-> n1 = n2.
Proof.
  split; [|intros ->; reflexivity]. intros E.
  apply segment_key_inj in E. tauto.
Qed.

(** Every piece is emitted under the key of its index. *)
Lemma project_pieces_lookup_piece self nm pieces proj n piece :
  pieces !! n = Some piece ->
  project_pieces self nm pieces proj !! segment_key nm n =
  Some (emitted self piece).
Proof.
  revert n piece. induction pieces as [|x pieces IH] using rev_ind;
    intros n piece Hn; [discriminate|].
  rewrite project_pieces_snoc.
  apply lookup_snoc_Some in Hn as [[Hlt Hn]|[-> ->]].
  - rewrite lookup_insert_ne; [apply IH, Hn|].
    rewrite segment_key_eq_iff. lia.
  - apply lookup_insert_eq.
Qed.

(** Every entry was either there before or comes from a piece. *)
Lemma project_pieces_lookup_inv self nm pieces proj k val :
  project_pieces self nm pieces proj !! k = Some val ->
  (exists n piece, pieces !! n = Some piece /\ k = segment_key nm n /\
                   val = emitted self piece) \/
  proj !! k = Some val.
Proof.
  induction pieces as [|x pieces IH] using rev_ind; [auto|].
  rewrite project_pieces_snoc.
  intros [[<- <-]|[_ H]]%lookup_insert_Some.
  - left. exists (length pieces), x. split; [|auto].
    apply lookup_snoc_Some. auto.
  - destruct (IH H) as [(n & piece & Hn & -> & ->)|Hp]; [|auto].
    left. exists n, piece. split; [|auto].
    apply lookup_snoc_Some. left. split; [|exact Hn].
    apply lookup_lt_Some in Hn. exact Hn.
Qed.

Lemma project_pieces_mono self nm pieces proj k :
  is_Some (proj !! k) ->
  is_Some (project_pieces self nm pieces proj !! k).
Proof.
  intros Hk. induction pieces as [|x pieces IH] using rev_ind; [exact Hk|].
  rewrite project_pieces_snoc. apply lookup_insert_is_Some.
  destruct (decide (segment_key nm (length pieces) = k)); auto.
Qed.

(** An actor without intersection points leaves the dictionary as it is. *)
Lemma project_actor_skip self proj actor :
  points (intersectWith self (actor_mesh actor)) = [] ->
  project_actor self proj actor = proj.
Proof. unfold project_actor. intros ->. reflexivity. Qed.

Lemma project_actor_cut self proj actor :
  points (intersectWith self (actor_mesh actor)) <> [] ->
  project_actor self proj actor =
  project_pieces self (name actor)
    (splitByConnectivity (intersectWith self (actor_mesh actor))) proj.
Proof.
  unfold project_actor. intros H.
  destruct (points (intersectWith self (actor_mesh actor))); [contradiction|].
  reflexivity.
Qed.

Lemma project_actor_mono self proj actor k :
  is_Some (proj !! k) -> is_Some (project_actor self proj actor !! k).
Proof.
  intros Hk. unfold project_actor.
  destruct (length _ =? 0)%nat; [exact Hk|].
  apply project_pieces_mono, Hk.
Qed.

Lemma foldl_project_actor_mono self proj (actors : list (Actor Mesh)) k :
  is_Some (proj !! k) ->
  is_Some (foldl (project_actor self) proj actors !! k).
Proof.
  revert proj. induction actors as [|a actors IH]; intros proj Hk;
    [exact Hk|].
  simpl. apply IH, project_actor_mono, Hk.
Qed.

Lemma foldl_project_actor_lookup_inv self proj
    (actors : list (Actor Mesh)) k val :
  foldl (project_actor self) proj actors !! k = Some val ->
  from_piece self actors k val \/ proj !! k = Some val.
Proof.
  revert proj. induction actors as [|a actors IH]; intros proj H; [auto|].
  simpl in H. apply IH in H as [(b & n & piece & Hb & H)|H].
  { left. exists b, n, piece. split; [|exact H].
    apply elem_of_cons. auto. }
  destruct (decide (points (intersectWith self (actor_mesh a)) = []))
    as [He|He].
  - rewrite (project_actor_skip _ _ _ He) in H. auto.
  - rewrite (project_actor_cut _ _ _ He) in H.
    apply project_pieces_lookup_inv in H
      as [(n & piece & Hn & -> & ->)|H]; [|auto].
    left. exists a, n, piece. split; [apply elem_of_cons; auto|]. auto.
Qed.

Lemma get_projections_lookup_inv self (actors : list (Actor Mesh)) k val :
  get_projections self actors !! k = Some val ->
  from_piece self actors k val.
Proof.
  intros [H|H]%foldl_project_actor_lookup_inv; [exact H|].
  rewrite lookup_empty in H. discriminate.
Qed.

Lemma get_projections_has_piece self (actors : list (Actor Mesh))
    actor n piece :
  actor ∈ actors ->
  points (intersectWith self (actor_mesh actor)) <> [] ->
  splitByConnectivity (intersectWith self (actor_mesh actor)) !! n
    = Some piece ->
  is_Some (get_projections self actors !! segment_key (name actor) n).
Proof.
  intros (pre & post & ->)%list_elem_of_split He Hn.
  unfold get_projections. rewrite foldl_app. simpl.
  apply foldl_project_actor_mono.
  rewrite (project_actor_cut _ _ _ He).
  rewrite (project_pieces_lookup_piece _ _ _ _ _ _ Hn). eauto.
Qed.

End Projections.

(** ** The contract of [get_projections] *)

Section GetProjections.
Import Plane Slicer.
Context `{!Vedo Mesh}.
Implicit Types (self : Plane.t) (proj : gmap string (list vec2)).
Implicit Types (actor : Actor Mesh) (pre post : list (Actor Mesh)).

(** Keys that no actor of the list can produce keep their old binding. *)
Lemma foldl_project_actor_lookup_other self proj
    (actors : list (Actor Mesh)) k :
  (forall b n, b ∈ actors -> k <> segment_key (name b) n) ->
  foldl (project_actor self) proj actors !! k = proj !! k.
Proof.
  intros Hk.
  destruct (foldl (project_actor self) proj actors !! k) as [val|] eqn:E.
  - apply foldl_project_actor_lookup_inv in E
      as [(b & n & piece & Hb & _ & _ & -> & _)|E]; [|congruence].
    exfalso. exact (Hk b n Hb eq_refl).
  - destruct (proj !! k) as [val|] eqn:E'; [|reflexivity].
    destruct (foldl_project_actor_mono self proj actors k) as [w Hw];
      [eauto|congruence].
Qed.

Lemma get_projections_app_cons self pre actor post :
  get_projections self (pre ++ actor :: post) =
  foldl (project_actor self)
        (project_actor self (get_projections self pre) actor) post.
Proof. unfold get_projections. rewrite foldl_app. reflexivity. Qed.

(** The result depends on an actor through its name and the selected mesh
    only. *)
Lemma project_actor_ext self proj (a b : Actor Mesh) :
  name a = name b -> actor_mesh a = actor_mesh b ->
  project_actor self proj a = project_actor self proj b.
Proof. unfold project_actor. intros -> ->. reflexivity. Qed.

(** The entry of a piece right after its actor has been processed. *)
Lemma get_projections_snoc_lookup self pre actor (n : nat) (piece : Mesh) :
  points (intersectWith self (actor_mesh actor)) <> [] ->
  splitByConnectivity (intersectWith self (actor_mesh actor)) !! n
    = Some piece ->
  get_projections self (pre ++ [actor]) !! segment_key (name actor) n =
  Some (P3toP2 self (points (join_reset piece))).
Proof.
  intros Hcut Hpiece. rewrite get_projections_app_cons. simpl.
  rewrite (project_actor_cut _ _ _ Hcut).
  apply project_pieces_lookup_piece, Hpiece.
Qed.

(** C6 (as amended): an actor whose intersection has no points is skipped:
    its loop iteration leaves the dictionary unchanged, the result is the
    one computed without the actor, and no key with the actor's name is in
    the result provided no other actor of that name meets the plane. *)
Theorem C6_empty_intersection_is_skipped self pre post actor
    (Hempty : points (intersectWith self (actor_mesh actor)) = []) :
  (forall proj, project_actor self proj actor = proj) /\
  get_projections self (pre ++ actor :: post) =
    get_projections self (pre ++ post) /\
  ((forall other, other ∈ pre ++ post -> name other = name actor ->
      points (intersectWith self (actor_mesh other)) = []) ->
   forall n,
     get_projections self (pre ++ actor :: post)
       !! segment_key (name actor) n = None).
Proof.
  split; [intros proj; apply project_actor_skip, Hempty|].
  assert (get_projections self (pre ++ actor :: post) =
          get_projections self (pre ++ post)) as Hsame.
  { rewrite get_projections_app_cons, (project_actor_skip _ _ _ Hempty).
    unfold get_projections. rewrite foldl_app. reflexivity. }
  split; [exact Hsame|].
  intros Hothers n. rewrite Hsame.
  destruct (get_projections self (pre ++ post)
              !! segment_key (name actor) n) as [val|] eqn:E;
    [|reflexivity].
  apply get_projections_lookup_inv in E
    as (b & k & piece & Hb & Hne & _ & Hkey & _).
  apply segment_key_inj in Hkey as [Hname _].
  exfalso. apply Hne, Hothers; [exact Hb|congruence].
Qed.

(** C7: every entry of the result has the key
    name + "_segment_" + str(n) of an actor of the list whose intersection
    has points, n being the position of a piece in the list returned by the
    connectivity split, and holds the projection of that piece. *)
Theorem C7_keys_are_name_segment_index self (actors : list (Actor Mesh))
    (k : string) (val : list vec2)
    (Hentry : get_projections self actors !! k = Some val) :
  exists actor n piece,
    actor ∈ actors /\
    splitByConnectivity (intersectWith self (actor_mesh actor)) !! n
      = Some piece /\
    k = name actor +:+ "_segment_" +:+ pretty n /\
    val = P3toP2 self (points (join_reset piece)).
Proof.
  apply get_projections_lookup_inv in Hentry
    as (actor & n & piece & Ha & _ & Hn & Hk & Hv).
  exists actor, n, piece. auto.
Qed.

(** C9: the mesh handed to [intersectWith] for an actor is its [_mesh] when
    it has one and its [mesh] otherwise.  With [m] this mesh: the actor's
    turn of the loop is the one computed from the cut [intersectWith self m];
    when the cut has points every piece of its connectivity split is in the
    result under the actor's keys, with this piece's projection right after
    the actor's turn; when the cut has no points the actor contributes
    nothing; whatever the actor's turn stores is the projection of a piece of
    the cut of [m]; the result is the one for an actor that has [m] as its
    only mesh, and with [_mesh] present the original [mesh] does not
    influence the result. *)
Theorem C9_modified_mesh_is_sliced self pre post actor (m : Mesh)
    (Hm : mesh_to_slice actor m) :
  actor_mesh actor = m /\
  (forall proj,
     project_actor self proj actor =
     if (length (points (intersectWith self m)) =? 0)%nat then proj
     else project_pieces self (name actor)
            (splitByConnectivity (intersectWith self m)) proj) /\
  (points (intersectWith self m) <> [] ->
   forall (n : nat) (piece : Mesh),
     splitByConnectivity (intersectWith self m) !! n = Some piece ->
     get_projections self (pre ++ [actor]) !! segment_key (name actor) n =
       Some (P3toP2 self (points (join_reset piece))) /\
     is_Some (get_projections self (pre ++ actor :: post)
                !! segment_key (name actor) n)) /\
  (points (intersectWith self m) = [] ->
   get_projections self (pre ++ actor :: post) =
   get_projections self (pre ++ post)) /\
  (forall k val,
     get_projections self (pre ++ [actor]) !! k = Some val ->
     get_projections self pre !! k = Some val \/
     (points (intersectWith self m) <> [] /\
      exists (n : nat) (piece : Mesh),
        splitByConnectivity (intersectWith self m) !! n = Some piece /\
        k = segment_key (name actor) n /\
        val = P3toP2 self (points (join_reset piece)))) /\
  get_projections self (pre ++ actor :: post) =
    get_projections self
      (pre ++ mkActor m (name actor) (br_class actor) None (width actor)
           :: post) /\
  (forall original : Mesh, _mesh actor <> None ->
     get_projections self (pre ++ actor :: post) =
     get_projections self
       (pre ++ mkActor original (name actor) (br_class actor)
                       (_mesh actor) (width actor) :: post)).
Proof.
  assert (actor_mesh actor = m) as Hsel.
  { unfold actor_mesh. destruct Hm as [m' ->| ->]; reflexivity. }
  split; [exact Hsel|]. clear Hm. subst m.
  split; [intros proj; reflexivity|].
  split; [|split; [|split; [|split]]].
  - intros Hcut n piece Hpiece.
    pose proof (get_projections_snoc_lookup self pre actor n piece
                  Hcut Hpiece) as Hnow.
    split; [exact Hnow|].
    rewrite get_projections_app_cons.
    apply foldl_project_actor_mono.
    rewrite get_projections_app_cons in Hnow. simpl in Hnow.
    rewrite Hnow. eauto.
  - intros Hskip. rewrite get_projections_app_cons.
    rewrite (project_actor_skip _ _ _ Hskip).
    unfold get_projections. rewrite foldl_app. reflexivity.
  - intros k val. rewrite get_projections_app_cons. simpl.
    destruct (points (intersectWith self (actor_mesh actor))) as [|p ps] eqn:E.
    + rewrite (project_actor_skip _ _ _ E). auto.
    + assert (points (intersectWith self (actor_mesh actor)) <> []) as Hcut
        by (rewrite E; discriminate).
      rewrite (project_actor_cut _ _ _ Hcut).
      intros [(n & piece & Hn & -> & ->)|Hold]%project_pieces_lookup_inv;
        [right|left; exact Hold].
      split; [discriminate|]. exists n, piece. auto.
  - rewrite !get_projections_app_cons. reflexivity.
  - intros original Hsome. rewrite !get_projections_app_cons. f_equal.
    apply project_actor_ext; [reflexivity|].
    unfold actor_mesh; simpl. destruct (_mesh actor); [reflexivity|].
    contradiction.
Qed.

(** C10: no piece is filtered out by size: for an actor whose intersection
    has points, every piece of the connectivity split is projected and
    stored under its key when the actor is processed, the key is in the
    final result, and the entry is still this piece's projection at the end
    unless a later actor has the same name; a piece of a single point yields
    an entry of a single 2D point. *)
Theorem C10_every_piece_is_emitted self pre post actor (n : nat)
    (piece : Mesh)
    (Hcut : points (intersectWith self (actor_mesh actor)) <> [])
    (Hpiece : splitByConnectivity (intersectWith self (actor_mesh actor))
                !! n = Some piece) :
  let k := segment_key (name actor) n in
  let val := P3toP2 self (points (join_reset piece)) in
  get_projections self (pre ++ [actor]) !! k = Some val /\
  is_Some (get_projections self (pre ++ actor :: post) !! k) /\
  ((forall later, later ∈ post -> name later <> name actor) ->
   get_projections self (pre ++ actor :: post) !! k = Some val) /\
  (forall p, points (join_reset piece) = [p] ->
     val = [matmul (sub p (center self)) (M self)]).
Proof.
  intros k val.
  assert (project_actor self (get_projections self pre) actor !! k
          = Some val) as Hnow.
  { rewrite (project_actor_cut _ _ _ Hcut).
    apply project_pieces_lookup_piece, Hpiece. }
  split; [|split; [|split]].
  - rewrite get_projections_app_cons. exact Hnow.
  - rewrite get_projections_app_cons.
    apply foldl_project_actor_mono. eauto.
  - intros Hlater. rewrite get_projections_app_cons.
    rewrite foldl_project_actor_lookup_other; [exact Hnow|].
    intros b j Hb E. apply segment_key_inj in E as [E _].
    exact (Hlater b Hb (eq_sym E)).
  - intros p Hp. unfold val. rewrite Hp. reflexivity.
Qed.

End GetProjections.

(** ** The theorems at sample inputs *)

Section Instances.
Import Plane Slicer Samples.
Local Open Scope R_scope.

Lemma xy_plane_init :
  __init__ zeros3 (Vec3 1 0 0) (Vec3 0 1 0) = inr xy_plane.
Proof.
  apply init_orthonormal.
  - exact linalg_norm_1_0_0.
  - exact linalg_norm_0_1_0.
  - unfold dot; simpl. ring.
Qed.

Lemma C4_witness_xy_plane :
  constructed xy_plane /\
  orthonormal
    (after_calls Polylines.format_array Polylines.bounds xy_plane
       [call_centerOfMass; call_get_projections [touching];
        call_to_mesh touching]).
Proof.
  assert (constructed xy_plane) as Hc
    by exact (constructed_init _ _ _ _ xy_plane_init).
  split; [exact Hc|].
  exact (proj1 (proj2
    (C4_constructed_plane_stays_orthonormal
       Polylines.format_array Polylines.bounds xy_plane
       [call_centerOfMass; call_get_projections [touching];
        call_to_mesh touching] Hc))).
Defined.

Lemma C5_witness_z_normal :
  Vec3 0 0 1 <> zeros3 /\
  exists self : Plane.t,
    from_norm zeros3 (Vec3 0 0 1) = inr self /\
    dot (u self) (Vec3 0 0 1) = 0.
Proof.
  assert (Vec3 0 0 1 <> zeros3) as Hn by (intros [= E]; lra).
  split; [exact Hn|].
  destruct (C5_from_norm_derives_axes zeros3 (Vec3 0 0 1) Hn)
    as (m & norm_m & norm_n & u0 & u1 & norm1 & self & H).
  exists self. split; [apply H|apply H].
Defined.

Lemma touching_cut :
  points (intersectWith xy_plane (actor_mesh touching)) <> [].
Proof. discriminate. Qed.

Lemma C6_witness_missing :
  points (intersectWith xy_plane (actor_mesh missing)) = [] /\
  get_projections xy_plane ([] ++ missing :: [touching]) =
  get_projections xy_plane ([] ++ [touching]).
Proof.
  assert (points (intersectWith xy_plane (actor_mesh missing)) = [])
    as He by reflexivity.
  split; [exact He|].
  exact (proj1 (proj2
    (C6_empty_intersection_is_skipped xy_plane [] [touching] missing He))).
Defined.

(** C6 (as first stated, refuted): an actor without intersection points
    shares its name with an actor that is cut; a key with that name is in
    the result. *)
Lemma C6_counterexample_shared_name :
  ~ (forall (self : Plane.t) (actors : list (Actor Polylines.Mesh))
            (actor : Actor Polylines.Mesh) (n : nat),
        actor ∈ actors ->
        points (intersectWith self (actor_mesh actor)) = [] ->
        get_projections self actors !! segment_key (name actor) n = None).
Proof.
  intros H.
  specialize (H xy_plane ([missing] ++ [namesake]) missing 0%nat).
  rewrite (get_projections_snoc_lookup xy_plane [missing] namesake 0
             [[Vec3 0 0 0; Vec3 1 0 0]]) in H.
  - assert (missing ∈ [missing] ++ [namesake]) as Hin
      by (apply elem_of_cons; left; reflexivity).
    specialize (H Hin eq_refl). discriminate.
  - discriminate.
  - reflexivity.
Qed.

Lemma C7_witness_root_segment_0 :
  get_projections xy_plane ([] ++ [touching]) !! segment_key "root" 0
    = Some (P3toP2 xy_plane [Vec3 1 0 0]) /\
  exists actor n piece,
    actor ∈ [] ++ [touching] /\
    splitByConnectivity (intersectWith xy_plane (actor_mesh actor)) !! n
      = Some piece /\
    segment_key "root" 0 = name actor +:+ "_segment_" +:+ pretty n /\
    P3toP2 xy_plane [Vec3 1 0 0] =
      P3toP2 xy_plane (points (join_reset piece)).
Proof.
  assert (get_projections xy_plane ([] ++ [touching])
            !! segment_key "root" 0
          = Some (P3toP2 xy_plane [Vec3 1 0 0])) as Hentry
    by exact (get_projections_snoc_lookup xy_plane [] touching 0
                [[Vec3 1 0 0]] touching_cut eq_refl).
  split; [exact Hentry|].
  exact (C7_keys_are_name_segment_index xy_plane ([] ++ [touching])
           (segment_key "root" 0) (P3toP2 xy_plane [Vec3 1 0 0]) Hentry).
Defined.

Lemma C9_witness_halved :
  mesh_to_slice halved [[Vec3 0 1 0; Vec3 1 1 0]] /\
  points (intersectWith xy_plane [[Vec3 0 1 0; Vec3 1 1 0]]) <> [] /\
  splitByConnectivity (intersectWith xy_plane [[Vec3 0 1 0; Vec3 1 1 0]])
    !! 0%nat = Some [[Vec3 0 1 0; Vec3 1 1 0]] /\
  get_projections xy_plane ([] ++ [halved]) !! segment_key "TH" 0 =
    Some (P3toP2 xy_plane [Vec3 0 1 0; Vec3 1 1 0]).
Proof.
  assert (mesh_to_slice halved [[Vec3 0 1 0; Vec3 1 1 0]]) as Hm
    by exact (slice_modified halved _ eq_refl).
  assert (points (intersectWith xy_plane [[Vec3 0 1 0; Vec3 1 1 0]]) <> [])
    as Hcut by discriminate.
  split; [exact Hm|]. split; [exact Hcut|]. split; [reflexivity|].
  destruct (C9_modified_mesh_is_sliced xy_plane [] [] halved _ Hm)
    as (_ & _ & Hin & _).
  exact (proj1 (Hin Hcut 0%nat [[Vec3 0 1 0; Vec3 1 1 0]] eq_refl)).
Defined.

Lemma C10_witness_single_point :
  points (intersectWith xy_plane (actor_mesh touching)) <> [] /\
  splitByConnectivity (intersectWith xy_plane (actor_mesh touching))
    !! 0%nat = Some [[Vec3 1 0 0]] /\
  get_projections xy_plane ([missing] ++ [touching])
    !! segment_key "root" 0
  = Some (P3toP2 xy_plane [Vec3 1 0 0]).
Proof.
  split; [exact touching_cut|]. split; [reflexivity|].
  exact (proj1 (C10_every_piece_is_emitted xy_plane [missing] []
                  touching 0 [[Vec3 1 0 0]] touching_cut eq_refl)).
Defined.

End Instances.

(** * Further properties of the plane *)

Section PlaneAlgebra.
Import Plane.
Local Open Scope R_scope.

Lemma vec2_eq (a b : vec2) : px a = px b -> py a = py b -> a = b.
Proof. destruct a, b; simpl; intros -> ->; reflexivity. Qed.

Lemma dot_sym (a b : vec3) : dot a b = dot b a.
Proof. unfold dot. ring. Qed.

Lemma dot_unit (a : vec3) : linalg_norm a = 1 -> dot a a = 1.
Proof. intros H. rewrite <- linalg_norm_sqr, H. ring. Qed.

(** a x (b x c) = b (a . c) - c (a . b) *)
Lemma cross_cross (a b c : vec3) :
  cross a (cross b c) = sub (scale (dot a c) b) (scale (dot a b) c).
Proof. apply vec3_eq; unfold cross, sub, scale, dot; simpl; ring. Qed.

Lemma linalg_norm_scale (s : R) (a : vec3) :
  0 <= s -> linalg_norm (scale s a) = s * linalg_norm a.
Proof.
  intros Hs. rewrite !linalg_norm_dot, dot_scale.
  rewrite sqrt_mult; [|nra|apply dot_self_nonneg].
  rewrite sqrt_square by exact Hs. reflexivity.
Qed.

Lemma scale_eq_zeros3 (s : R) (a : vec3) :
  s <> 0 -> scale s a = zeros3 -> a = zeros3.
Proof.
  intros Hs [= Hx Hy Hz]. apply vec3_eq; simpl.
  - apply Rmult_integral in Hx as [?|?]; [contradiction|assumption].
  - apply Rmult_integral in Hy as [?|?]; [contradiction|assumption].
  - apply Rmult_integral in Hz as [?|?]; [contradiction|assumption].
Qed.

(** Normalizing forgets a positive factor. *)
Lemma normalized_scale (s : R) (a : vec3) :
  0 < s -> normalized (scale s a) = normalized a.
Proof.
  intros Hs. destruct (decide (linalg_norm a = 0)) as [->%linalg_norm_eq_0|Ha].
  { replace (scale s zeros3) with zeros3; [reflexivity|].
    apply vec3_eq; simpl; ring. }
  assert (a <> zeros3) as Ha'
    by (intros ->; apply Ha, linalg_norm_zeros3).
  clear Ha. rename Ha' into Ha.
  assert (scale s a <> zeros3) as Hsa.
  { intros E. apply Ha, (scale_eq_zeros3 s); [lra|exact E]. }
  rewrite (normalized_nonzero _ Hsa), (normalized_nonzero _ Ha).
  rewrite linalg_norm_scale by lra.
  pose proof (linalg_norm_pos a Ha).
  f_equal. apply vec3_eq; simpl; field; lra.
Qed.

(** The argument of a successful normalization is its length times the
    result. *)
Lemma normalized_rescale (a a' : vec3) :
  normalized a = Some a' -> a = scale (linalg_norm a) a'.
Proof.
  intros [Ha ->]%normalized_Some_inv.
  pose proof (linalg_norm_pos a Ha).
  apply vec3_eq; simpl; field; lra.
Qed.

(** For orthonormal u, v the three numbers d.u, d.v, d.(u x v) carry the
    whole length of d. *)
Lemma orthonormal_decomposition (d a b : vec3) :
  linalg_norm a = 1 -> linalg_norm b = 1 -> dot a b = 0 ->
  dot d d = dot d a * dot d a + dot d b * dot d b
            + dot d (cross a b) * dot d (cross a b).
Proof.
  intros Ha%dot_unit Hb%dot_unit Hab.
  pose proof (dot_cross_cross d (cross a b)) as H1.
  rewrite cross_cross in H1.
  rewrite (dot_cross_cross a b), Ha, Hb, Hab in H1.
  assert (dot (sub (scale (dot d b) a) (scale (dot d a) b))
              (sub (scale (dot d b) a) (scale (dot d a) b))
          = dot d b * dot d b * dot a a
            - 2 * (dot d b * dot d a) * dot a b
            + dot d a * dot d a * dot b b) as H2
    by (unfold dot, sub, scale; simpl; ring).
  rewrite H2, Ha, Hb, Hab in H1. lra.
Qed.

(** The case analysis of [from_norm] written out: each non-zero pattern of
    the normal with its unnormalized u. *)
Lemma from_norm_unfold (origin : vec3) (x y z : R) :
  let finish (u0 : vec3) :=
    match normalized (Vec3 x y z), normalized u0 with
    | Some norm1, Some u1 => __init__ origin u1 (cross norm1 u1)
    | _, _ => inl AssertionError
    end in
  from_norm origin (Vec3 x y z) =
  if decide (x = 0) then
    if decide (y = 0) then
      if decide (z = 0) then inl IndexError
      else finish (Vec3 z 0 (- x))
    else finish (Vec3 0 (- z) y)
  else finish (Vec3 (- y) x 0).
Proof.
  unfold from_norm, where_nonzero; simpl.
  destruct (decide (x = 0)); destruct (decide (y = 0));
    destruct (decide (z = 0)); reflexivity.
Qed.

(** What [from_norm] returns for a non-zero normal. *)
Lemma from_norm_frame (norm : vec3) :
  norm <> zeros3 ->
  exists norm1 u1,
    normalized norm = Some norm1 /\
    linalg_norm norm1 = 1 /\ linalg_norm u1 = 1 /\ dot norm1 u1 = 0 /\
    forall origin,
      from_norm origin norm =
      inr (Plane.mk origin u1 (cross norm1 u1) (cross u1 (cross norm1 u1))
             (T (vstack u1 (cross norm1 u1)))).
Proof.
  intros Hn. destruct norm as [x y z].
  assert (exists u0, u0 <> zeros3 /\ dot u0 (Vec3 x y z) = 0 /\
            forall origin, from_norm origin (Vec3 x y z) =
              match normalized (Vec3 x y z), normalized u0 with
              | Some norm1, Some u1 => __init__ origin u1 (cross norm1 u1)
              | _, _ => inl AssertionError
              end) as (u0 & Hu0 & Hd & Hfn).
  { destruct (decide (x = 0)) as [Hx|Hx];
      [destruct (decide (y = 0)) as [Hy|Hy];
       [destruct (decide (z = 0)) as [Hz|Hz]|]|].
    - exfalso. apply Hn. subst. reflexivity.
    - exists (Vec3 z 0 (- x)). split; [intros [= E _]; contradiction|].
      split; [unfold dot; simpl; ring|].
      intros origin. rewrite from_norm_unfold.
      destruct (decide (x = 0)); [|contradiction].
      destruct (decide (y = 0)); [|contradiction].
      destruct (decide (z = 0)); [contradiction|reflexivity].
    - exists (Vec3 0 (- z) y). split; [intros [= _ E]; contradiction|].
      split; [unfold dot; simpl; ring|].
      intros origin. rewrite from_norm_unfold.
      destruct (decide (x = 0)); [|contradiction].
      destruct (decide (y = 0)); [contradiction|reflexivity].
    - exists (Vec3 (- y) x 0). split; [intros [= _ E]; contradiction|].
      split; [unfold dot; simpl; ring|].
      intros origin. rewrite from_norm_unfold.
      destruct (decide (x = 0)); [contradiction|reflexivity]. }
  destruct (init_derived_axes zeros3 _ u0 Hn Hu0 Hd)
    as (norm1 & u1 & En & Eu & H1 & _).
  exists norm1, u1. split; [exact En|].
  pose proof (normalized_unit_length _ _ En) as Ln.
  pose proof (normalized_unit_length _ _ Eu) as Lu.
  assert (dot norm1 u1 = 0) as H2.
  { apply normalized_Some_inv in En as [_ ->].
    unfold dot, scale in *; simpl in *.
    transitivity (/ linalg_norm (Vec3 x y z) *
                  (vx u1 * x + vy u1 * y + vz u1 * z)); [ring|].
    rewrite H1. ring. }
  repeat split; try assumption.
  intros origin. rewrite Hfn, En, Eu.
  destruct (init_derived_axes origin _ u0 Hn Hu0 Hd)
    as (norm1' & u1' & En' & Eu' & _ & Hinit).
  congruence.
Qed.

Lemma from_norm_inr_nonzero (origin norm : vec3) (self : Plane.t) :
  from_norm origin norm = inr self -> norm <> zeros3.
Proof.
  intros H ->. unfold zeros3 in H.
  rewrite (from_norm_unfold origin 0 0 0) in H.
  destruct (decide (0 = 0)); [discriminate|contradiction].
Qed.

End PlaneAlgebra.

Section PlaneProperties.
Import Plane.
Local Open Scope R_scope.

(** X1: [P3toP2] is affine around the plane's center: the center goes to
    (0, 0), and the image of center + a d + b e is a times the image of the
    displacement d plus b times the image of e. *)
Theorem X1_P3toP2_affine (self : Plane.t) (a b : R) (d e : vec3) :
  P3toP2 self [center self] = [Vec2 0 0] /\
  P3toP2 self [add (center self) (add (scale a d) (scale b e))] =
  [Vec2 (a * px (matmul d (M self)) + b * px (matmul e (M self)))
        (a * py (matmul d (M self)) + b * py (matmul e (M self)))].
Proof.
  split; unfold P3toP2; simpl; f_equal; apply vec2_eq;
    unfold matmul, sub, add, scale; simpl; ring.
Qed.

(** X2: on a plane built by [from_norm], projecting
    origin + a u + b v gives exactly (a, b). *)
Theorem X2_from_norm_round_trip (origin norm : vec3) (self : Plane.t)
    (a b : R)
    (Hself : from_norm origin norm = inr self) :
  P3toP2 self [add origin (add (scale a (u self)) (scale b (v self)))] =
  [Vec2 a b].
Proof.
  destruct (from_norm_frame norm (from_norm_inr_nonzero _ _ _ Hself))
    as (n1 & u1 & _ & Ln & Lu & Hnu & Hfn).
  rewrite Hfn in Hself. injection Hself as <-.
  pose proof (dot_unit _ Lu) as Huu.
  pose proof (dot_cross_cross n1 u1) as Hvv.
  rewrite (dot_unit _ Ln), Huu, Hnu in Hvv.
  pose proof (dot_cross_right n1 u1) as Huv.
  unfold P3toP2; simpl. f_equal. apply vec2_eq; simpl.
  - transitivity (a * dot u1 u1 + b * dot u1 (cross n1 u1)).
    + unfold dot, cross; simpl. ring.
    + rewrite Huu, Huv. ring.
  - transitivity (a * dot u1 (cross n1 u1)
                  + b * dot (cross n1 u1) (cross n1 u1)).
    + unfold dot, cross; simpl. ring.
    + rewrite Huv, Hvv. ring.
Qed.

Lemma P3toP2_init (origin a b : vec3) (self : Plane.t) (p : vec3) :
  __init__ origin a b = inr self ->
  P3toP2 self [p] =
  [Vec2 (linalg_norm a * dot (sub p origin) (u self))
        (linalg_norm b * dot (sub p origin) (v self))].
Proof.
  intros (a' & b' & Ea & Eb & _ & ->)%init_inr_inv.
  apply normalized_rescale in Ea, Eb.
  unfold P3toP2; simpl. f_equal. apply vec2_eq; simpl.
  - rewrite Ea at 1 2 3. unfold dot, scale, sub; simpl. ring.
  - rewrite Eb at 1 2 3. unfold dot, scale, sub; simpl. ring.
Qed.

(** X3: on a plane built by the constructor from the arguments a and b,
    the projection of a point is its coordinate along the unit axis u
    times the length of a, and its coordinate along v times the length of
    b. *)
Theorem X3_P3toP2_scaled_by_argument_lengths (origin a b : vec3)
    (self : Plane.t) (p : vec3)
    (Hself : __init__ origin a b = inr self) :
  P3toP2 self [p] =
  [Vec2 (linalg_norm a * dot (sub p origin) (u self))
        (linalg_norm b * dot (sub p origin) (v self))].
Proof. exact (P3toP2_init origin a b self p Hself). Qed.

(** X4: on every constructed plane the projection does not see the
    component along the normal: moving a point by a multiple of the normal
    leaves its 2D image unchanged. *)
Theorem X4_P3toP2_ignores_normal_offset (self : Plane.t) (p : vec3)
    (h : R)
    (Hself : constructed self) :
  P3toP2 self [add p (scale h (normal self))] = P3toP2 self [p].
Proof.
  assert (exists origin a b, __init__ origin a b = inr self)
    as (origin & a & b & Hinit).
  { destruct Hself as [origin a b self H|origin norm self H]; [eauto|].
    apply from_norm_is_init in H as (a & b & H). eauto. }
  rewrite (P3toP2_init origin a b self _ Hinit).
  rewrite (P3toP2_init origin a b self _ Hinit).
  apply init_inr_inv in Hinit as (a' & b' & _ & _ & _ & ->). simpl.
  f_equal. apply vec2_eq; simpl; f_equal.
  - transitivity (dot (sub p origin) a' + h * dot a' (cross a' b')).
    + unfold dot, cross, sub, add, scale; simpl. ring.
    + rewrite dot_cross_left. ring.
  - transitivity (dot (sub p origin) b' + h * dot b' (cross a' b')).
    + unfold dot, cross, sub, add, scale; simpl. ring.
    + rewrite dot_cross_right. ring.
Qed.

End PlaneProperties.

Section ConstructorProperties.
Import Plane.
Local Open Scope R_scope.

Lemma dot_normalized (a b : vec3) :
  a <> zeros3 -> b <> zeros3 ->
  dot (scale (/ linalg_norm a) a) (scale (/ linalg_norm b) b) =
  dot a b / (linalg_norm a * linalg_norm b).
Proof.
  intros Ha%linalg_norm_pos Hb%linalg_norm_pos.
  rewrite dot_scale. field. lra.
Qed.

Lemma Rabs_div_pos (x c : R) : 0 < c -> Rabs (x / c) = Rabs x / c.
Proof.
  intros Hc. unfold Rdiv. rewrite Rabs_mult.
  rewrite (Rabs_pos_eq (/ c)); [reflexivity|].
  left. apply Rinv_0_lt_compat, Hc.
Qed.

(** X5: the constructor succeeds exactly when both arguments are non-zero
    and |a . b| <= 1e-8 |a| |b|; when it fails, it fails with the
    assertion's exception. *)
Theorem X5_init_succeeds_iff (origin a b : vec3) :
  ((exists self, __init__ origin a b = inr self) <->
   a <> zeros3 /\ b <> zeros3 /\
   Rabs (dot a b) <= atol * (linalg_norm a * linalg_norm b)) /\
  (forall e, __init__ origin a b = inl e -> e = AssertionError).
Proof.
  split.
  - split.
    + intros [self (a' & b' & Ea & Eb & Hab & _)%init_inr_inv].
      apply normalized_Some_inv in Ea as [Ha ->].
      apply normalized_Some_inv in Eb as [Hb ->].
      split; [exact Ha|]. split; [exact Hb|].
      rewrite dot_normalized in Hab by assumption.
      pose proof (linalg_norm_pos a Ha). pose proof (linalg_norm_pos b Hb).
      assert (0 < linalg_norm a * linalg_norm b) as Hc by nra.
      rewrite Rabs_div_pos in Hab by exact Hc.
      apply (Rmult_le_compat_r (linalg_norm a * linalg_norm b)) in Hab;
        [|lra].
      replace (Rabs (dot a b) / (linalg_norm a * linalg_norm b)
               * (linalg_norm a * linalg_norm b))
        with (Rabs (dot a b)) in Hab by (field; lra).
      exact Hab.
    + intros (Ha & Hb & Hab). unfold __init__.
      rewrite (normalized_nonzero a Ha), (normalized_nonzero b Hb).
      pose proof (linalg_norm_pos a Ha). pose proof (linalg_norm_pos b Hb).
      assert (0 < linalg_norm a * linalg_norm b) as Hc by nra.
      assert (isclose (dot (scale (/ linalg_norm a) a)
                           (scale (/ linalg_norm b) b)) 0 = true) as ->;
        [|eauto].
      apply isclose_0. rewrite dot_normalized by assumption.
      rewrite Rabs_div_pos by exact Hc.
      apply (Rmult_le_reg_r (linalg_norm a * linalg_norm b)); [exact Hc|].
      replace (Rabs (dot a b) / (linalg_norm a * linalg_norm b)
               * (linalg_norm a * linalg_norm b))
        with (Rabs (dot a b)) by (field; lra).
      exact Hab.
  - intros e. unfold __init__.
    destruct (normalized a); [|congruence].
    destruct (normalized b); [|congruence].
    destruct (isclose _ _); congruence.
Qed.

(** X6: the axes and the normal of a constructed plane depend on the
    directions of the arguments only: stretching the arguments by positive
    factors gives the same center, u, v and normal; the matrix follows the
    stretched arguments. *)
Theorem X6_init_axes_ignore_positive_scaling (origin a b : vec3)
    (self : Plane.t) (s r : R)
    (Hs : 0 < s) (Hr : 0 < r)
    (Hself : __init__ origin a b = inr self) :
  __init__ origin (scale s a) (scale r b) =
  inr (Plane.mk (center self) (u self) (v self) (normal self)
                (T (vstack (scale s a) (scale r b)))).
Proof.
  apply init_inr_inv in Hself as (a' & b' & Ea & Eb & Hab & ->).
  unfold __init__.
  rewrite (normalized_scale s a Hs), (normalized_scale r b Hr), Ea, Eb.
  apply isclose_0 in Hab. rewrite Hab. reflexivity.
Qed.

(** X7: a plane built by [from_norm] is centered at the given origin, its
    normal is the given normal scaled to length 1 (same direction, not
    flipped), and u, v, normal are exactly orthonormal with
    normal = u x v; the columns of its matrix are u and v. *)
Theorem X7_from_norm_exact_frame (origin norm : vec3) (self : Plane.t)
    (Hself : from_norm origin norm = inr self) :
  center self = origin /\
  normal self = scale (/ linalg_norm norm) norm /\
  normal self = cross (u self) (v self) /\
  linalg_norm (u self) = 1 /\ linalg_norm (v self) = 1 /\
  linalg_norm (normal self) = 1 /\
  dot (u self) (v self) = 0 /\
  dot (u self) (normal self) = 0 /\ dot (v self) (normal self) = 0 /\
  col0 (M self) = u self /\ col1 (M self) = v self.
Proof.
  pose proof (from_norm_inr_nonzero _ _ _ Hself) as Hn.
  destruct (from_norm_frame norm Hn)
    as (n1 & u1 & En & Ln & Lu & Hnu & Hfn).
  rewrite Hfn in Hself. injection Hself as <-. simpl.
  assert (cross u1 (cross n1 u1) = n1) as Hnormal.
  { rewrite cross_cross, (dot_unit _ Lu), (dot_sym u1 n1), Hnu.
    apply vec3_eq; simpl; ring. }
  assert (linalg_norm (cross n1 u1) = 1) as Lv.
  { apply linalg_norm_of_dot_1.
    rewrite dot_cross_cross, (dot_unit _ Ln), (dot_unit _ Lu), Hnu. ring. }
  split; [reflexivity|]. split.
  { rewrite Hnormal. apply normalized_Some_inv in En as [_ ->].
    reflexivity. }
  split; [reflexivity|]. split; [exact Lu|]. split; [exact Lv|].
  split; [rewrite Hnormal; exact Ln|].
  split; [apply dot_cross_right|].
  split; [apply dot_cross_left|].
  split; [apply dot_cross_right|].
  split; destruct u1; reflexivity.
Qed.

(** X8: [from_norm] depends on the direction of the normal only: a
    positive multiple of the normal gives the same plane. *)
Theorem X8_from_norm_positive_scale_invariant (origin norm : vec3) (s : R)
    (Hs : 0 < s) :
  from_norm origin (scale s norm) = from_norm origin norm.
Proof.
  destruct norm as [x y z]. unfold scale at 1; simpl.
  rewrite !from_norm_unfold. cbv zeta.
  change (Vec3 (s * x) (s * y) (s * z)) with (scale s (Vec3 x y z)).
  rewrite (normalized_scale s _ Hs).
  replace (Vec3 (s * z) 0 (- (s * x))) with (scale s (Vec3 z 0 (- x)))
    by (apply vec3_eq; simpl; ring).
  replace (Vec3 0 (- (s * z)) (s * y)) with (scale s (Vec3 0 (- z) y))
    by (apply vec3_eq; simpl; ring).
  replace (Vec3 (- (s * y)) (s * x) 0) with (scale s (Vec3 (- y) x 0))
    by (apply vec3_eq; simpl; ring).
  rewrite !(normalized_scale s _ Hs).
  destruct (decide (s * x = 0)) as [Hx|Hx];
    destruct (decide (x = 0)) as [Hx'|Hx']; try (exfalso; nra);
    destruct (decide (s * y = 0)) as [Hy|Hy];
    destruct (decide (y = 0)) as [Hy'|Hy']; try (exfalso; nra);
    destruct (decide (s * z = 0)) as [Hz|Hz];
    destruct (decide (z = 0)) as [Hz'|Hz']; try (exfalso; nra);
    reflexivity.
Qed.

(** X9: on a plane built by [from_norm] the projection keeps distances
    between points of the plane: for p, q with (p - origin) . normal = 0
    and (q - origin) . normal = 0, the squared distance of the two images
    is the squared distance of p and q. *)
Theorem X9_P3toP2_isometry_in_plane (origin norm : vec3) (self : Plane.t)
    (p q : vec3)
    (Hself : from_norm origin norm = inr self)
    (Hp : dot (sub p origin) (normal self) = 0)
    (Hq : dot (sub q origin) (normal self) = 0) :
  exists p2 q2 : vec2,
    P3toP2 self [p; q] = [p2; q2] /\
    (px p2 - px q2) * (px p2 - px q2) + (py p2 - py q2) * (py p2 - py q2)
    = dot (sub p q) (sub p q).
Proof.
  pose proof (from_norm_inr_nonzero _ _ _ Hself) as Hn.
  destruct (from_norm_frame norm Hn)
    as (n1 & u1 & En & Ln & Lu & Hnu & Hfn).
  rewrite Hfn in Hself. injection Hself as <-. simpl in *.
  eexists _, _. split; [reflexivity|]. simpl.
  assert (linalg_norm (cross n1 u1) = 1) as Lv.
  { apply linalg_norm_of_dot_1.
    rewrite dot_cross_cross, (dot_unit _ Ln), (dot_unit _ Lu), Hnu. ring. }
  rewrite (orthonormal_decomposition (sub p q) u1 (cross n1 u1) Lu Lv
             (dot_cross_right n1 u1)).
  assert (dot (sub p q) (cross u1 (cross n1 u1)) = 0) as ->.
  { transitivity (dot (sub p origin) (cross u1 (cross n1 u1))
                  - dot (sub q origin) (cross u1 (cross n1 u1))).
    - unfold dot, sub; simpl. ring.
    - rewrite Hp, Hq. ring. }
  unfold dot, sub, cross; simpl. ring.
Qed.

End ConstructorProperties.

Section BoundingQuadProperties.
Import Plane Slicer.
Local Open Scope R_scope.

(** X10: for a bounding box with min <= max on every axis, the side of the
    plane mesh stored as its width is non-negative and at least 4/3 of
    each extent of the box, so at least each extent. *)
Theorem X10_to_mesh_covers_extents `{!Vedo Mesh} (fmt : vec3 -> string)
    (bnds : Actor Mesh -> Bounds) (self : Plane.t) (actor : Actor Mesh)
    (Hx : xmin (bnds actor) <= xmax (bnds actor))
    (Hy : ymin (bnds actor) <= ymax (bnds actor))
    (Hz : zmin (bnds actor) <= zmax (bnds actor)) :
  exists side : R,
    width (to_mesh fmt bnds self actor) = Some side /\
    mesh (to_mesh fmt bnds self actor) =
      vd_Plane (center self) (normal self) side side /\
    0 <= side /\
    (xmax (bnds actor) - xmin (bnds actor)) * 4 / 3 <= side /\
    (ymax (bnds actor) - ymin (bnds actor)) * 4 / 3 <= side /\
    (zmax (bnds actor) - zmin (bnds actor)) * 4 / 3 <= side /\
    xmax (bnds actor) - xmin (bnds actor) <= side /\
    ymax (bnds actor) - ymin (bnds actor) <= side /\
    zmax (bnds actor) - zmin (bnds actor) <= side.
Proof.
  eexists. split; [reflexivity|]. split; [reflexivity|].
  rewrite max3_Rmax.
  set (ex := xmax (bnds actor) - xmin (bnds actor)).
  set (ey := ymax (bnds actor) - ymin (bnds actor)).
  set (ez := zmax (bnds actor) - zmin (bnds actor)).
  pose proof (Rmax_l (Rmax ex ey) ez). pose proof (Rmax_r (Rmax ex ey) ez).
  pose proof (Rmax_l ex ey). pose proof (Rmax_r ex ey).
  assert (0 <= ex) by (unfold ex; lra).
  assert (0 <= ey) by (unfold ey; lra).
  assert (0 <= ez) by (unfold ez; lra).
  repeat split; lra.
Qed.

End BoundingQuadProperties.

(** * Further properties of [get_projections] *)

Section ProjectionProperties.
Import Plane Slicer.
Context `{!Vedo Mesh}.
Implicit Types (self : Plane.t) (proj : gmap string (list vec2)).
Implicit Types (actor : Actor Mesh) (actors : list (Actor Mesh)).

Lemma project_pieces_union self nm (pieces : list Mesh) proj :
  project_pieces self nm pieces proj =
  project_pieces self nm pieces ∅ ∪ proj.
Proof.
  induction pieces as [|x pieces IH] using rev_ind.
  - unfold project_pieces; simpl. rewrite (left_id_L ∅ (∪)). reflexivity.
  - rewrite !project_pieces_snoc, IH, insert_union_l. reflexivity.
Qed.

Lemma project_actor_union self proj actor :
  project_actor self proj actor = project_actor self ∅ actor ∪ proj.
Proof.
  unfold project_actor. destruct (length _ =? 0)%nat.
  - rewrite (left_id_L ∅ (∪)). reflexivity.
  - apply project_pieces_union.
Qed.

Lemma foldl_project_actor_union self proj actors :
  foldl (project_actor self) proj actors =
  foldl (project_actor self) ∅ actors ∪ proj.
Proof.
  revert proj. induction actors as [|a actors IH]; intros proj; simpl.
  - rewrite (left_id_L ∅ (∪)). reflexivity.
  - rewrite IH, (IH (project_actor self ∅ a)), project_actor_union.
    rewrite (assoc_L (∪)). reflexivity.
Qed.

Lemma get_projections_app self actors1 actors2 :
  get_projections self (actors1 ++ actors2) =
  get_projections self actors2 ∪ get_projections self actors1.
Proof.
  unfold get_projections. rewrite foldl_app.
  apply foldl_project_actor_union.
Qed.

Lemma get_projections_cons self actor actors :
  get_projections self (actor :: actors) =
  get_projections self actors ∪ get_projections self [actor].
Proof. apply (get_projections_app self [actor] actors). Qed.

(** Actors of different names write to different keys. *)
Lemma get_projections_disjoint self actors1 actors2 :
  (forall a b, a ∈ actors1 -> b ∈ actors2 -> name a <> name b) ->
  get_projections self actors1 ##ₘ get_projections self actors2.
Proof.
  intros Hne. apply map_disjoint_spec. intros k v1 v2 H1 H2.
  apply get_projections_lookup_inv in H1
    as (a & n & _ & Ha & _ & _ & -> & _).
  apply get_projections_lookup_inv in H2
    as (b & j & _ & Hb & _ & _ & E & _).
  apply segment_key_inj in E as [E _]. exact (Hne a b Ha Hb E).
Qed.

(** X11: when no actor meets the plane (in particular for an empty list of
    actors) the result is the empty dictionary. *)
Theorem X11_no_intersection_gives_empty_dict self actors
    (Hmiss : forall actor, actor ∈ actors ->
             points (intersectWith self (actor_mesh actor)) = []) :
  get_projections self actors = ∅.
Proof.
  apply map_eq. intros k. rewrite lookup_empty.
  destruct (get_projections self actors !! k) as [val|] eqn:E;
    [|reflexivity].
  apply get_projections_lookup_inv in E as (a & n & _ & Ha & Hne & _).
  exfalso. apply Hne, Hmiss, Ha.
Qed.

(** X12: actors are processed independently: the result for a
    concatenation of two actor lists is the union of the two results, an
    entry of the second list winning where both have the key; the result
    for a list is the union of the results of its actors. *)
Theorem X12_get_projections_is_a_union self actors1 actors2 :
  get_projections self (actors1 ++ actors2) =
  get_projections self actors2 ∪ get_projections self actors1.
Proof. apply get_projections_app. Qed.

(** X13: for actors with pairwise different names, the result as a mapping
    from keys to point lists does not depend on the order of the actors. *)
Theorem X13_order_of_distinct_names_is_irrelevant self actors actors'
    (Hperm : actors ≡ₚ actors')
    (Hnames : NoDup (name <$> actors)) :
  get_projections self actors = get_projections self actors'.
Proof.
  induction Hperm as [|x l l' Hperm IH|x y l|l l' l'' H1 IH1 H2 IH2].
  - reflexivity.
  - rewrite (get_projections_cons self x l), (get_projections_cons self x l').
    rewrite IH; [reflexivity|].
    rewrite fmap_cons in Hnames. apply NoDup_cons in Hnames. tauto.
  - rewrite (get_projections_cons self y (x :: l)).
    rewrite (get_projections_cons self x l).
    rewrite (get_projections_cons self x (y :: l)).
    rewrite (get_projections_cons self y l).
    rewrite <- !(assoc_L (∪)). f_equal.
    apply map_union_comm, get_projections_disjoint.
    intros a b ->%list_elem_of_singleton ->%list_elem_of_singleton E.
    rewrite !fmap_cons in Hnames. apply NoDup_cons in Hnames as [Hy _].
    apply Hy. rewrite E. apply elem_of_cons. auto.
  - rewrite IH1 by exact Hnames. apply IH2.
    rewrite <- H1. exact Hnames.
Qed.

(** X14: the keys of the result are exactly the keys
    name + "_segment_" + str(n) of the actors that meet the plane, n
    ranging over the positions of their connected pieces. *)
Theorem X14_keys_of_the_result self actors (k : string) :
  k ∈ dom (get_projections self actors) <->
  exists actor n,
    actor ∈ actors /\
    points (intersectWith self (actor_mesh actor)) <> [] /\
    (n < length (splitByConnectivity
                   (intersectWith self (actor_mesh actor))))%nat /\
    k = segment_key (name actor) n.
Proof.
  rewrite elem_of_dom. split.
  - intros [val (a & n & piece & Ha & Hne & Hn & -> & _)
              %get_projections_lookup_inv].
    exists a, n. repeat split; try assumption.
    apply lookup_lt_Some in Hn. exact Hn.
  - intros (a & n & Ha & Hne & Hn & ->).
    apply lookup_lt_is_Some in Hn as [piece Hn].
    exact (get_projections_has_piece self actors a n piece Ha Hne Hn).
Qed.

Lemma project_pieces_size self nm (pieces : list Mesh) :
  size (project_pieces self nm pieces ∅) = length pieces.
Proof.
  induction pieces as [|x pieces IH] using rev_ind; [reflexivity|].
  rewrite project_pieces_snoc, length_app, Nat.add_1_r; simpl.
  rewrite map_size_insert_None; [rewrite IH; reflexivity|].
  destruct (project_pieces self nm pieces ∅
              !! segment_key nm (length pieces)) as [val|] eqn:E;
    [|reflexivity].
  apply project_pieces_lookup_inv in E as [(n & piece & Hn & E & _)|E].
  - apply segment_key_inj in E as [_ <-].
    apply lookup_lt_Some in Hn. lia.
  - rewrite lookup_empty in E. discriminate.
Qed.

(** X15: for actors with pairwise different names, the number of entries
    of the result is the total number of connected pieces of the actors
    that meet the plane: no two pieces share a key. *)
Theorem X15_one_entry_per_piece self actors
    (Hnames : NoDup (name <$> actors)) :
  size (get_projections self actors) =
  sum_list
    (map (fun actor =>
            let intersection := intersectWith self (actor_mesh actor) in
            if (length (points intersection) =? 0)%nat then 0%nat
            else length (splitByConnectivity intersection))
         actors).
Proof.
  induction actors as [|a actors IH]; [reflexivity|].
  rewrite fmap_cons in Hnames. apply NoDup_cons in Hnames as [Ha Hnd].
  rewrite get_projections_cons, map_size_disj_union.
  - rewrite (IH Hnd). simpl. rewrite Nat.add_comm. f_equal.
    unfold get_projections, project_actor; simpl.
    destruct (length _ =? 0)%nat; [reflexivity|].
    apply project_pieces_size.
  - apply get_projections_disjoint.
    intros b c Hb ->%list_elem_of_singleton E.
    apply Ha. rewrite <- E. apply list_elem_of_fmap. eauto.
Qed.

End ProjectionProperties.

(** * Properties of the scene *)

Section SceneProperties.
Import Scene2D.
Context {A V : Type} `{!Brainrender A V}.
Implicit Types (self : Scene2D.t A) (act : A) (acts : list A).
Implicit Types (items : list (item A V)).

Lemma index_None act (l : list A) : index act l = None <-> act ∉ l.
Proof.
  induction l as [|y l IH]; simpl.
  - split; [intros _; apply not_elem_of_nil|reflexivity].
  - destruct (decide (y = act)) as [->|Hne].
    + split; [discriminate|]. intros H. exfalso. apply H, elem_of_cons. auto.
    + rewrite fmap_None, IH, elem_of_cons. split; [|tauto].
      intros H [E|E]; [congruence|contradiction].
Qed.

Lemma index_first act (l1 l2 : list A) :
  act ∉ l1 -> index act (l1 ++ act :: l2) = Some (length l1).
Proof.
  induction l1 as [|y l1 IH]; simpl; intros H.
  - destruct (decide (act = act)); [reflexivity|contradiction].
  - apply not_elem_of_cons in H as [Hne H].
    destruct (decide (y = act)); [congruence|]. rewrite (IH H). reflexivity.
Qed.

Lemma remove_one_absent self (reported : list A) act :
  act ∉ actors self ->
  remove_one (self, reported) act = (self, reported ++ [act]).
Proof.
  intros H%index_None. unfold remove_one. rewrite H. reflexivity.
Qed.

Lemma remove_one_first (reported l1 l2 : list A) act :
  act ∉ l1 ->
  remove_one (Scene2D.mk (l1 ++ act :: l2), reported) act =
  (Scene2D.mk (l1 ++ l2), reported).
Proof.
  intros H. unfold remove_one; simpl. rewrite (index_first _ _ _ H).
  rewrite delete_middle. reflexivity.
Qed.

(** Either case of one removal. *)
Lemma remove_one_cases self (reported : list A) act :
  ((act ∉ actors self) /\
   remove_one (self, reported) act = (self, reported ++ [act])) \/
  (exists l1 l2, actors self = l1 ++ act :: l2 /\ (act ∉ l1) /\
     remove_one (self, reported) act =
     (Scene2D.mk (l1 ++ l2), reported)).
Proof.
  destruct (decide (act ∈ actors self)) as [Hin|Hout].
  - right. apply list_elem_of_split_l in Hin as (l1 & l2 & E & Hl1).
    exists l1, l2. split; [exact E|]. split; [exact Hl1|].
    destruct self as [l]; simpl in E; subst l.
    apply remove_one_first, Hl1.
  - left. split; [exact Hout|]. apply remove_one_absent, Hout.
Qed.

(** X16: removing an actor that is not in the scene leaves the scene as it
    is; the failure is only reported. *)
Theorem X16_remove_absent_actor self act
    (Habsent : act ∉ actors self) :
  remove self [act] = (self, [act]).
Proof.
  change (remove self [act]) with (remove_one (self, []) act).
  apply (remove_one_absent self [] act Habsent).
Qed.

(** X17: removing an actor takes out its first occurrence only; the other
    actors, and later occurrences of the same actor, stay in place and in
    order. *)
Theorem X17_remove_first_occurrence (l1 l2 : list A) act
    (Hfirst : act ∉ l1) :
  remove (Scene2D.mk (l1 ++ act :: l2)) [act] =
  (Scene2D.mk (l1 ++ l2), []).
Proof.
  change (remove (Scene2D.mk (l1 ++ act :: l2)) [act])
    with (remove_one (Scene2D.mk (l1 ++ act :: l2), []) act).
  apply remove_one_first, Hfirst.
Qed.

Lemma foldl_remove_one_accounting acts self (reported : list A) :
  let result := foldl remove_one (self, reported) acts in
  actors (fst result) `sublist_of` actors self /\
  (length (actors (fst result)) + length acts + length reported
   = length (actors self) + length (snd result))%nat.
Proof.
  revert self reported.
  induction acts as [|act acts IH]; intros self reported.
  - simpl. split; [reflexivity|lia].
  - change (foldl remove_one (self, reported) (act :: acts))
      with (foldl remove_one (remove_one (self, reported) act) acts).
    destruct (remove_one_cases self reported act)
      as [[_ ->]|(l1 & l2 & E & _ & ->)].
    + destruct (IH self (reported ++ [act])) as [Hs Hl].
      split; [exact Hs|]. rewrite length_app in Hl. simpl in Hl |- *. lia.
    + destruct (IH (Scene2D.mk (l1 ++ l2)) reported) as [Hs Hl].
      simpl in Hs, Hl. rewrite E. split.
      * etransitivity; [exact Hs|].
        apply sublist_app; [reflexivity|]. apply sublist_cons. reflexivity.
      * rewrite length_app in *. simpl in *. lia.
Qed.

(** X18: [remove] never adds or reorders actors: the actors left are a
    sublist of the actors before, and every requested actor either took
    exactly one entry out of the scene or was reported. *)
Theorem X18_remove_accounting self acts :
  actors (fst (remove self acts)) `sublist_of` actors self /\
  (length (actors (fst (remove self acts))) + length acts
   = length (actors self) + length (snd (remove self acts)))%nat.
Proof.
  destruct (foldl_remove_one_accounting acts self []) as [Hs Hl].
  split; [exact Hs|]. simpl in Hl. unfold remove. lia.
Qed.

(** X19: [get_actors] returns, in scene order, exactly the actors whose
    name is among the given names (when names are given) and whose class
    is among the given classes (when classes are given). *)
Theorem X19_get_actors_selects self (nm cls : option (arg string)) :
  get_actors self nm cls `sublist_of` actors self /\
  forall a : A,
    a ∈ get_actors self nm cls <->
    a ∈ actors self /\
    (forall names, nm = Some names -> Actor_name a ∈ listify names) /\
    (forall classes, cls = Some classes ->
       Actor_br_class a ∈ listify classes).
Proof.
  unfold get_actors. split.
  - destruct nm, cls; try reflexivity;
      repeat (etransitivity; [apply sublist_filter|]); reflexivity.
  - intros a. destruct nm as [names|], cls as [classes|];
      rewrite ?list_elem_of_filter; split.
    + intros (Hc & Hn & Ha). split; [exact Ha|].
      split; intros ? [= <-]; assumption.
    + intros (Ha & Hn & Hc). eauto.
    + intros (Hn & Ha). split; [exact Ha|].
      split; [intros ? [= <-]; assumption|discriminate].
    + intros (Ha & Hn & _). eauto.
    + intros (Hc & Ha). split; [exact Ha|].
      split; [discriminate|intros ? [= <-]; assumption].
    + intros (Ha & _ & Hc). eauto.
    + intros Ha. split; [exact Ha|]. split; discriminate.
    + intros (Ha & _). exact Ha.
Qed.

End SceneProperties.

Section SceneAdd.
Import Scene2D.
Context {A V : Type} `{!Brainrender A V}.
Implicit Types (self : Scene2D.t A) (act : A) (acts : list A).
Implicit Types (items : list (item A V)).

Lemma add_loop_inr (zipped : list (item A V * option string * option string))
    (acc r : list A) :
  add_loop zipped acc = inr r ->
  exists new, r = acc ++ new /\ (length new <= length zipped)%nat.
Proof.
  revert acc. induction zipped as [|[[it nm] cls] zipped IH];
    intros acc; simpl.
  - intros [= <-]. exists []. rewrite (right_id_L [] (++)). auto.
  - destruct (add_item it nm cls) as [e|[a|]]; [discriminate|..].
    + intros (new & -> & Hl)%IH. exists (a :: new).
      rewrite <- (assoc_L (++)). simpl. split; [reflexivity|lia].
    + intros (new & -> & Hl)%IH. exists new. split; [reflexivity|lia].
Qed.

Lemma add_loop_inl (zipped : list (item A V * option string * option string))
    (acc : list A) (e : add_exn) :
  add_loop zipped acc = inl e -> e = ValueError.
Proof. destruct e. reflexivity. Qed.

Lemma add_loop_other
    (zipped : list (item A V * option string * option string))
    (acc : list A) (o : V) (nm cls : option string) :
  (item_other o, nm, cls) ∈ zipped -> add_loop zipped acc = inl ValueError.
Proof.
  revert acc. induction zipped as [|[[it nm'] cls'] zipped IH];
    intros acc Hin.
  - apply not_elem_of_nil in Hin. contradiction.
  - simpl. apply elem_of_cons in Hin as [[= <- <- <-]|Hin]; [reflexivity|].
    destruct (add_item it nm' cls') as [[]|[a|]]; [reflexivity|..];
      apply IH, Hin.
Qed.

Lemma zip_defaults items :
  zip (zip items (labels_for labels_None items))
      (labels_for labels_None items)
  = map (fun it => (it, None, None)) items.
Proof.
  unfold labels_for; simpl.
  induction items as [|it items IH]; simpl; [reflexivity|].
  f_equal. exact IH.
Qed.

Lemma add_loop_actors acts (acc : list A) :
  add_loop (map (fun it => (it, None, None)) (item_Actor <$> acts)) acc
  = inr (acc ++ acts).
Proof.
  revert acc. induction acts as [|a acts IH]; intros acc; simpl.
  - rewrite (right_id_L [] (++)). reflexivity.
  - rewrite IH, <- (assoc_L (++)). reflexivity.
Qed.

(** X20: a successful [add] keeps the actors of the scene in place and
    appends the new ones behind them; what it returns is the smart form of
    the list of new actors, and there are at most as many new actors as
    items. *)
Theorem X20_add_appends self self' items (names classes : labels)
    (r : smart A)
    (Hadd : add self items names classes = (self', inr r)) :
  exists new : list A,
    actors self' = actors self ++ new /\
    r = return_list_smart new /\
    (length new <= length items)%nat.
Proof.
  unfold add in Hadd.
  destruct (add_loop _ []) as [e|new] eqn:E; [discriminate|].
  injection Hadd as <- <-.
  apply add_loop_inr in E as (new' & -> & Hl).
  exists new'. simpl. split; [reflexivity|]. split; [reflexivity|].
  rewrite !length_zip in Hl. lia.
Qed.

(** X21: with default names and classes, an item of an unrecognized type
    anywhere among the items makes [add] raise ValueError and leaves the
    scene unchanged, also when recognized items come before it. *)
Theorem X21_add_unrecognized_item_changes_nothing self items (o : V)
    (Hother : item_other o ∈ items) :
  add self items labels_None labels_None = (self, inl ValueError).
Proof.
  unfold add. rewrite zip_defaults.
  rewrite (add_loop_other _ [] o None None); [reflexivity|].
  apply list_elem_of_fmap. exists (item_other o). auto.
Qed.

(** X22: adding actors with default names and classes appends exactly
    these actors, in the order given, and returns them in smart form. *)
Theorem X22_add_actors_as_they_are self acts :
  add self (item_Actor <$> acts) labels_None labels_None =
  (Scene2D.mk (actors self ++ acts), inr (return_list_smart acts)).
Proof.
  unfold add. rewrite zip_defaults, add_loop_actors. reflexivity.
Qed.

(** X23: [add] walks the items zipped with the names: when a non-empty
    list of names is shorter than the items, the items beyond the names
    are ignored, whatever they are. *)
Theorem X23_add_ignores_items_beyond_names self items
    (extra : list (item A V)) (l : list (option string))
    (Hlen : length l = length items)
    (Hl : l <> []) :
  add self (items ++ extra) (labels_list l) labels_None =
  add self items (labels_list l) labels_None.
Proof.
  unfold add.
  assert (forall I (xs : list I), labels_for (labels_list l) xs = l) as Hnames.
  { intros I xs. unfold labels_for; simpl.
    destruct l; [contradiction|reflexivity]. }
  rewrite !Hnames.
  assert (zip (items ++ extra) l = zip items l) as ->.
  { rewrite zip_with_app_l, take_ge, drop_ge by lia.
    rewrite zip_with_nil_r. apply (right_id_L [] (++)). }
  assert (zip (zip items l) (labels_for labels_None (items ++ extra))
          = zip (zip items l) (labels_for labels_None items)) as ->;
    [|reflexivity].
  unfold labels_for; simpl. rewrite map_app.
  rewrite zip_with_app_r, take_ge, drop_ge;
    try (rewrite length_map, length_zip; lia).
  rewrite zip_with_nil_l. apply (right_id_L [] (++)).
Qed.

(** X24: adding an actor that is not yet in the scene and removing it
    again gives back the scene. *)
Theorem X24_add_then_remove self act
    (Hnew : act ∉ actors self) :
  exists self1 r,
    add self [item_Actor act] labels_None labels_None = (self1, inr r) /\
    remove self1 [act] = (self, []).
Proof.
  exists (Scene2D.mk (actors self ++ [act])), (return_list_smart [act]).
  split.
  - change [item_Actor act] with (@item_Actor A V <$> [act]).
    unfold add. rewrite zip_defaults, add_loop_actors. reflexivity.
  - destruct self as [l]. simpl in *.
    change (remove (Scene2D.mk (l ++ [act])) [act])
      with (remove_one (Scene2D.mk (l ++ [act]), []) act).
    rewrite (remove_one_first [] l [] act Hnew).
    rewrite (right_id_L [] (++)). reflexivity.
Qed.

(** X25: removing a text actor does not change the clean actors nor the
    clean renderables of the scene. *)
Theorem X25_remove_text_keeps_clean_actors self act
    (Htext : Actor_is_text act = true) :
  clean_actors (fst (remove self [act])) = clean_actors self /\
  clean_renderables (fst (remove self [act])) = clean_renderables self.
Proof.
  assert (clean_actors (fst (remove self [act])) = clean_actors self) as H.
  { change (remove self [act]) with (remove_one (self, []) act).
    destruct (remove_one_cases self [] act)
      as [[_ ->]|(l1 & l2 & E & _ & ->)]; [reflexivity|].
    unfold clean_actors; simpl. rewrite E, !filter_app.
    rewrite filter_cons_False; [reflexivity|]. congruence. }
  split; [exact H|]. unfold clean_renderables.
  unfold clean_actors in H. rewrite H. reflexivity.
Qed.

End SceneAdd.

(** * The further properties at sample inputs *)

Section PlaneInstances.
Import Plane Slicer Samples.
Local Open Scope R_scope.

Lemma z_plane_from_norm : from_norm zeros3 (Vec3 0 0 1) = inr z_plane.
Proof.
  rewrite from_norm_unfold. cbv zeta.
  destruct (decide (0 = 0)) as [_|N]; [|contradiction].
  destruct (decide (1 = 0)) as [E|_]; [lra|].
  rewrite (normalized_of_unit _ linalg_norm_0_0_1).
  assert (linalg_norm (Vec3 1 0 (- 0)) = 1) as Lu
    by (apply linalg_norm_of_dot_1; unfold dot; simpl; ring).
  rewrite (normalized_of_unit _ Lu).
  apply init_orthonormal.
  - exact Lu.
  - apply linalg_norm_of_dot_1. unfold dot, cross; simpl. ring.
  - apply dot_cross_right.
Qed.

Lemma X2_witness_z_plane :
  from_norm zeros3 (Vec3 0 0 1) = inr z_plane /\
  P3toP2 z_plane
    [add zeros3 (add (scale 2 (u z_plane)) (scale 3 (v z_plane)))]
  = [Vec2 2 3].
Proof.
  split; [exact z_plane_from_norm|].
  exact (X2_from_norm_round_trip zeros3 (Vec3 0 0 1) z_plane 2 3
           z_plane_from_norm).
Defined.

Lemma X3_witness_xy_plane :
  __init__ zeros3 (Vec3 1 0 0) (Vec3 0 1 0) = inr xy_plane /\
  P3toP2 xy_plane [Vec3 1 1 0] =
  [Vec2 (linalg_norm (Vec3 1 0 0) * dot (sub (Vec3 1 1 0) zeros3)
                                        (u xy_plane))
        (linalg_norm (Vec3 0 1 0) * dot (sub (Vec3 1 1 0) zeros3)
                                        (v xy_plane))].
Proof.
  split; [exact xy_plane_init|].
  exact (X3_P3toP2_scaled_by_argument_lengths zeros3 (Vec3 1 0 0)
           (Vec3 0 1 0) xy_plane (Vec3 1 1 0) xy_plane_init).
Defined.

Lemma X4_witness_xy_plane :
  constructed xy_plane /\
  P3toP2 xy_plane [add (Vec3 1 1 0) (scale 5 (normal xy_plane))] =
  P3toP2 xy_plane [Vec3 1 1 0].
Proof.
  assert (constructed xy_plane) as Hc
    by exact (constructed_init _ _ _ _ xy_plane_init).
  split; [exact Hc|].
  exact (X4_P3toP2_ignores_normal_offset xy_plane (Vec3 1 1 0) 5 Hc).
Defined.

Lemma X6_witness_xy_plane :
  0 < 2 /\ 0 < 3 /\
  __init__ zeros3 (Vec3 1 0 0) (Vec3 0 1 0) = inr xy_plane /\
  __init__ zeros3 (scale 2 (Vec3 1 0 0)) (scale 3 (Vec3 0 1 0)) =
  inr (Plane.mk (center xy_plane) (u xy_plane) (v xy_plane)
         (normal xy_plane)
         (T (vstack (scale 2 (Vec3 1 0 0)) (scale 3 (Vec3 0 1 0))))).
Proof.
  assert (0 < 2) as H2 by lra. assert (0 < 3) as H3 by lra.
  split; [exact H2|]. split; [exact H3|]. split; [exact xy_plane_init|].
  exact (X6_init_axes_ignore_positive_scaling zeros3 (Vec3 1 0 0)
           (Vec3 0 1 0) xy_plane 2 3 H2 H3 xy_plane_init).
Defined.

Lemma X7_witness_z_plane :
  from_norm zeros3 (Vec3 0 0 1) = inr z_plane /\
  normal z_plane = scale (/ linalg_norm (Vec3 0 0 1)) (Vec3 0 0 1).
Proof.
  split; [exact z_plane_from_norm|].
  exact (proj1 (proj2 (X7_from_norm_exact_frame zeros3 (Vec3 0 0 1)
                         z_plane z_plane_from_norm))).
Defined.

Lemma X8_witness_doubled_normal :
  0 < 2 /\
  from_norm zeros3 (scale 2 (Vec3 0 0 1)) = from_norm zeros3 (Vec3 0 0 1).
Proof.
  assert (0 < 2) as H2 by lra. split; [exact H2|].
  exact (X8_from_norm_positive_scale_invariant zeros3 (Vec3 0 0 1) 2 H2).
Defined.

Lemma X9_witness_z_plane :
  from_norm zeros3 (Vec3 0 0 1) = inr z_plane /\
  dot (sub (Vec3 1 0 0) zeros3) (normal z_plane) = 0 /\
  dot (sub (Vec3 0 1 0) zeros3) (normal z_plane) = 0 /\
  exists p2 q2 : vec2,
    P3toP2 z_plane [Vec3 1 0 0; Vec3 0 1 0] = [p2; q2] /\
    (px p2 - px q2) * (px p2 - px q2) + (py p2 - py q2) * (py p2 - py q2)
    = dot (sub (Vec3 1 0 0) (Vec3 0 1 0)) (sub (Vec3 1 0 0) (Vec3 0 1 0)).
Proof.
  assert (dot (sub (Vec3 1 0 0) zeros3) (normal z_plane) = 0) as Hp
    by (unfold dot, sub, cross; simpl; ring).
  assert (dot (sub (Vec3 0 1 0) zeros3) (normal z_plane) = 0) as Hq
    by (unfold dot, sub, cross; simpl; ring).
  split; [exact z_plane_from_norm|]. split; [exact Hp|].
  split; [exact Hq|].
  exact (X9_P3toP2_isometry_in_plane zeros3 (Vec3 0 0 1) z_plane
           (Vec3 1 0 0) (Vec3 0 1 0) z_plane_from_norm Hp Hq).
Defined.

Lemma X10_witness_unit_box :
  xmin (Polylines.bounds touching) <= xmax (Polylines.bounds touching) /\
  exists side : R,
    width (to_mesh Polylines.format_array Polylines.bounds xy_plane
             touching) = Some side /\
    0 <= side.
Proof.
  assert (xmin (Polylines.bounds touching)
          <= xmax (Polylines.bounds touching)) as Hx by (simpl; lra).
  assert (ymin (Polylines.bounds touching)
          <= ymax (Polylines.bounds touching)) as Hy by (simpl; lra).
  assert (zmin (Polylines.bounds touching)
          <= zmax (Polylines.bounds touching)) as Hz by (simpl; lra).
  split; [exact Hx|].
  destruct (X10_to_mesh_covers_extents Polylines.format_array
              Polylines.bounds xy_plane touching Hx Hy Hz)
    as (side & Hw & _ & Hs & _).
  exists side. split; [exact Hw|exact Hs].
Defined.

End PlaneInstances.

Section ProjectionInstances.
Import Plane Slicer Samples.

Lemma sample_names_distinct : NoDup (name <$> [touching; halved]).
Proof.
  apply NoDup_cons. split.
  - intros [E|H]%elem_of_cons; [discriminate|].
    exact (not_elem_of_nil _ H).
  - apply NoDup_singleton.
Qed.

Lemma X11_witness_missing :
  (forall actor, actor ∈ [missing] ->
     points (intersectWith xy_plane (actor_mesh actor)) = []) /\
  get_projections xy_plane [missing] = ∅.
Proof.
  assert (forall actor, actor ∈ [missing] ->
            points (intersectWith xy_plane (actor_mesh actor)) = [])
    as Hmiss by (intros actor ->%list_elem_of_singleton; reflexivity).
  split; [exact Hmiss|].
  exact (X11_no_intersection_gives_empty_dict xy_plane [missing] Hmiss).
Defined.

Lemma X13_witness_swapped :
  [touching; halved] ≡ₚ [halved; touching] /\
  NoDup (name <$> [touching; halved]) /\
  get_projections xy_plane [touching; halved] =
  get_projections xy_plane [halved; touching].
Proof.
  assert ([touching; halved] ≡ₚ [halved; touching]) as Hp
    by apply Permutation_swap.
  split; [exact Hp|]. split; [exact sample_names_distinct|].
  exact (X13_order_of_distinct_names_is_irrelevant xy_plane _ _ Hp
           sample_names_distinct).
Defined.

Lemma X15_witness_two_actors :
  NoDup (name <$> [touching; halved]) /\
  size (get_projections xy_plane [touching; halved]) = 2%nat.
Proof.
  split; [exact sample_names_distinct|].
  exact (X15_one_entry_per_piece xy_plane [touching; halved]
           sample_names_distinct).
Defined.

End ProjectionInstances.

Section SceneInstances.
Import Scene2D.

Lemma X16_witness_absent :
  (5%nat ∉ actors (Scene2D.mk [1; 2]%nat)) /\
  remove (Scene2D.mk [1; 2]%nat) [5%nat] = (Scene2D.mk [1; 2]%nat, [5%nat]).
Proof.
  assert (5%nat ∉ actors (Scene2D.mk [1; 2]%nat)) as H.
  { simpl. intros [E|[E|H]%elem_of_cons]%elem_of_cons;
      [discriminate..|]. exact (not_elem_of_nil _ H). }
  split; [exact H|].
  exact (X16_remove_absent_actor (Scene2D.mk [1; 2]%nat) 5%nat H).
Defined.

Lemma X17_witness_duplicate :
  (2%nat ∉ [1%nat]) /\
  remove (Scene2D.mk ([1] ++ 2 :: [3; 2])%nat) [2%nat] =
  (Scene2D.mk ([1] ++ [3; 2])%nat, []).
Proof.
  assert (2%nat ∉ [1%nat]) as H.
  { intros [E|H]%elem_of_cons; [discriminate|].
    exact (not_elem_of_nil _ H). }
  split; [exact H|].
  exact (X17_remove_first_occurrence [1%nat] [3; 2]%nat 2%nat H).
Defined.

Lemma X20_witness_one_actor :
  add (Scene2D.mk [1%nat]) [item_Actor 2%nat; item_None] labels_None
      labels_None
  = (Scene2D.mk [1; 2]%nat, inr (smart_one 2%nat)) /\
  exists new : list nat,
    actors (Scene2D.mk [1; 2]%nat) = actors (Scene2D.mk [1%nat]) ++ new /\
    smart_one 2%nat = return_list_smart new /\
    (length new <= length [item_Actor (V:=nat) 2%nat; item_None])%nat.
Proof.
  assert (add (Scene2D.mk [1%nat]) [item_Actor 2%nat; item_None]
              labels_None labels_None
          = (Scene2D.mk [1; 2]%nat, inr (smart_one 2%nat))) as H
    by reflexivity.
  split; [exact H|].
  exact (X20_add_appends (Scene2D.mk [1%nat]) (Scene2D.mk [1; 2]%nat)
           [item_Actor 2%nat; item_None] labels_None labels_None
           (smart_one 2%nat) H).
Defined.

Lemma X21_witness_mesh_then_other :
  (item_other (A:=nat) 0%nat ∈ [item_Mesh 1%nat; item_other 0%nat]) /\
  add (Scene2D.mk [1%nat]) [item_Mesh 1%nat; item_other 0%nat]
      labels_None labels_None
  = (Scene2D.mk [1%nat], inl ValueError).
Proof.
  assert (item_other (A:=nat) 0%nat ∈ [item_Mesh 1%nat; item_other 0%nat])
    as H by (apply elem_of_cons; right; apply elem_of_cons; left;
             reflexivity).
  split; [exact H|].
  exact (X21_add_unrecognized_item_changes_nothing (Scene2D.mk [1%nat])
           [item_Mesh 1%nat; item_other 0%nat] 0%nat H).
Defined.

Lemma X23_witness_one_name :
  length [Some "a"] = length [item_Mesh (A:=nat) 1%nat] /\
  [Some "a"] <> [] /\
  add (Scene2D.mk [1%nat]) ([item_Mesh 1%nat] ++ [item_other 0%nat])
      (labels_list [Some "a"]) labels_None
  = add (Scene2D.mk [1%nat]) [item_Mesh 1%nat] (labels_list [Some "a"])
        labels_None.
Proof.
  assert ([Some "a"] <> []) as H by discriminate.
  split; [reflexivity|]. split; [exact H|].
  exact (X23_add_ignores_items_beyond_names (Scene2D.mk [1%nat])
           [item_Mesh 1%nat] [item_other 0%nat] [Some "a"] eq_refl H).
Defined.

Lemma X24_witness_new_actor :
  (2%nat ∉ actors (Scene2D.mk [1%nat])) /\
  exists self1 r,
    add (Scene2D.mk [1%nat]) [item_Actor (V:=nat) 2%nat] labels_None
        labels_None
    = (self1, inr r) /\
    remove self1 [2%nat] = (Scene2D.mk [1%nat], []).
Proof.
  assert (2%nat ∉ actors (Scene2D.mk [1%nat])) as H.
  { simpl. intros [E|H]%elem_of_cons; [discriminate|].
    exact (not_elem_of_nil _ H). }
  split; [exact H|].
  exact (X24_add_then_remove (V:=nat) (Scene2D.mk [1%nat]) 2%nat H).
Defined.

Lemma X25_witness_text_actor :
  Actor_is_text (V:=nat) 0%nat = true /\
  clean_actors (V:=nat) (fst (remove (Scene2D.mk [1; 0; 2]%nat) [0%nat]))
  = clean_actors (V:=nat) (Scene2D.mk [1; 0; 2]%nat).
Proof.
  split; [reflexivity|].
  exact (proj1 (X25_remove_text_keeps_clean_actors (V:=nat)
                  (Scene2D.mk [1; 0; 2]%nat) 0%nat eq_refl)).
Defined.

End SceneInstances.
